(** * The [no-cycle] rule: a module dependency cycle detector

    Shallow embedding of [src/rules/no-cycle.ts].  The rule is driven by the
    host's visitor: for every import-like declaration of the linted file it
    calls [checkSourceValue], which guards the declaration, consults the
    strongly-connected-components map and then walks the module graph
    breadth-first; the module-level set [traversed] survives from one
    declaration of a file to the next and is cleared on [Program:exit]. *)

From Stdlib Require Import DecimalString.
From stdpp Require Import base gmap sets list strings.

(** ** Data model *)

(** [DeclarationMetadata['source']]: the literal specifier and the line of
    its location ([loc.start.line]). *)
Record Source := mkSource { value : string; line : nat }.

Record DeclarationMetadata := mkDecl {
  source : Source;
  isOnlyImportingTypes : bool;
  dynamic : bool }.

(** A getter is a deferred [ExportMap.for] of a path: it is forced through
    the module cache, and yields [null] when the cache has no node. *)
Definition Getter := string.

Record ImportEdge := mkEdge {
  getter : Getter;
  declarations : list DeclarationMetadata }.

(** [m.imports] is a JS [Map]: iteration follows insertion order, so it is
    kept as an association list. *)
Record ExportMap := mkExportMap {
  path : string;
  imports : list (string * ImportEdge) }.

(** [Traverser.mget] is either the constant thunk [() => imported] of the
    first frontier item or an edge's getter. *)
Inductive Thunk :=
| Ready (m : ExportMap)
| Deferred (g : Getter).

Record Traverser := mkTraverser { mget : Thunk; route : list Source }.

(** [maxDepth]: a number, or [Number.POSITIVE_INFINITY] when the option is
    absent or the string form. *)
Inductive Depth :=
| Finite (n : nat)
| Infinity.

Record Options := mkOptions {
  allowUnsafeDynamicCyclicDependency : bool;
  ignoreExternal : bool;
  maxDepth : Depth }.

(** The AST nodes handed over by [moduleVisitor], as far as the rule
    discriminates them. *)
Inductive ImportKind := KindType | KindValue | KindTypeof.

(** A specifier; [None] when the node has no [importKind] property. *)
Record Specifier := mkSpecifier { spec_importKind : option ImportKind }.

Inductive Callee :=
| Identifier (name : string)
| OtherCallee.

Inductive Importer :=
| ImportDeclaration (importKind : option ImportKind) (specifiers : list Specifier)
| ImportExpression
| CallExpression (callee : Callee)
| ExportNamedDeclaration
| ExportAllDeclaration.

(** What the rule needs from its collaborators. *)
Record Env := mkEnv {
  isExternalModule : string → bool;
  exportMapGet : string → option ExportMap;
  modules : gmap string ExportMap;
  scc : option (gmap string nat) }.

Record Report := mkReport { node : Importer; data_source : string }.

(** ** Operations *)

Definition line_string (n : nat) : string :=
  NilZero.string_of_uint (Nat.to_uint n).

Fixpoint join (sep : string) (l : list string) : string :=
  match l with
  | [] => ""%string
  | [s] => s
  | s :: rest => s +:+ sep +:+ join sep rest
  end.

Definition routeString (r : list Source) : string :=
  join "=>" (map (λ s, value s +:+ ":" +:+ line_string (line s))%string r).

(** The [messages.cycle] template applied to [data]. *)
Definition message (r : Report) : string := ("Dependency cycle " +:+ data_source r)%string.

Definition depth_lt (n : nat) (d : Depth) : bool :=
  match d with
  | Finite k => n <? k
  | Infinity => true
  end.

Definition force (env : Env) (t : Thunk) : option ExportMap :=
  match t with
  | Ready m => Some m
  | Deferred g => modules env !! g
  end.

Section Rule.
Variable options : Options.
Variable env : Env.
Variable filename : string.

Definition ignoreModule (name : string) : bool :=
  if ignoreExternal options then isExternalModule env name else false.

Definition toTraverse (ds : list DeclarationMetadata) : list DeclarationMetadata :=
  List.filter
    (λ d, negb (ignoreModule (value (source d))) && negb (isOnlyImportingTypes d))
    ds.

(** The [for ... of m.imports] loop of [detectCycle]; [traversed] is not
    written inside the loop. *)
Fixpoint scanImports (traversed : gset string) (rt : list Source)
    (es : list (string * ImportEdge)) (untraversed : list Traverser)
    : bool * list Traverser :=
  match es with
  | [] => (false, untraversed)
  | (p, e) :: rest =>
    if bool_decide (p ∈ traversed) then scanImports traversed rt rest untraversed
    else
      let tt := toTraverse (declarations e) in
      if allowUnsafeDynamicCyclicDependency options && existsb dynamic tt
      then (false, untraversed)
      else if bool_decide (p = filename) && (0 <? length tt)
      then (true, untraversed)
      else if depth_lt (length rt + 1) (maxDepth options)
      then scanImports traversed rt rest
             (untraversed ++
              map (λ d, mkTraverser (Deferred (getter e)) (rt ++ [source d])) tt)
      else scanImports traversed rt rest untraversed
  end.

Definition detectCycle (traversed : gset string) (untraversed : list Traverser)
    (t : Traverser) : bool * gset string * list Traverser :=
  match force env (mget t) with
  | None => (false, traversed, untraversed)
  | Some m =>
    if bool_decide (path m ∈ traversed) then (false, traversed, untraversed)
    else
      let traversed' := {[path m]} ∪ traversed in
      let '(found, untraversed') :=
        scanImports traversed' (route t) (imports m) untraversed in
      (found, traversed', untraversed')
  end.

(** The [while (untraversed.length > 0)] loop; [None] only when the fuel
    runs out. *)
Fixpoint bfs (fuel : nat) (traversed : gset string) (untraversed : list Traverser)
    : option (option (list Source) * gset string) :=
  match fuel with
  | 0 => None
  | S fuel' =>
    match untraversed with
    | [] => Some (None, traversed)
    | next :: rest =>
      let '(found, traversed', untraversed') := detectCycle traversed rest next in
      if found then Some (Some (route next), traversed')
      else bfs fuel' traversed' untraversed'
    end
  end.

(** [options.allowUnsafeDynamicCyclicDependency && (...)]: the guard that
    lets a dynamic import pass unchecked. *)
Definition dynamicImportAllowed (importer : Importer) : bool :=
  allowUnsafeDynamicCyclicDependency options &&
  match importer with
  | ImportExpression => true
  | CallExpression (Identifier name) => negb (String.eqb name "require")
  | _ => false
  end.

Definition isTypeSpecifier (s : Specifier) : bool :=
  match spec_importKind s with
  | Some KindType => true
  | _ => false
  end.

(** [importer.type === 'ImportDeclaration' && (importKind === 'type' ||
    specifiers.every(...))]. *)
Definition isTypeImport (importer : Importer) : bool :=
  match importer with
  | ImportDeclaration kind specifiers =>
    match kind with
    | Some KindType => true
    | _ => forallb isTypeSpecifier specifiers
    end
  | _ => false
  end.

(** [scc[filename] === scc[imported.path]], when the map is there; a
    missing key reads as [undefined] on either side. *)
Definition hasDependencyCycle (imported : ExportMap) : bool :=
  match scc env with
  | Some components =>
    bool_decide (components !! filename = components !! path imported)
  | None => true
  end.

Definition edgesDegree (es : list (string * ImportEdge)) : nat :=
  sum_list_with (λ pe, length (declarations pe.2)) es.

Definition outDegree (m : ExportMap) : nat := edgesDegree (imports m).

(** Every turn of the loop either drops a frontier item or expands a module
    that was not traversed before, so the count of declarations of the
    start module and of the cached modules bounds the number of turns
    (lemma [bfs_fuel] below). *)
Definition enoughFuel (imported : ExportMap) : nat :=
  2 + outDegree imported + sum_list_with (λ gm, outDegree gm.2) (map_to_list (modules env)).

Definition reportData (rt : list Source) : string :=
  match rt with
  | [] => "detected."
  | _ => "via " +:+ routeString rt
  end%string.

(** The frontier starts as [[{ mget: () => imported, route: [] }]]; the
    loop yields the route of the item that closed a cycle, if any.  The
    fuel never runs out (lemma [search_terminates]). *)
Definition findRoute (imported : ExportMap) (traversed : gset string)
    : option (list Source) * gset string :=
  match bfs (enoughFuel imported) traversed [mkTraverser (Ready imported) []] with
  | Some r => r
  | None => (None, traversed)
  end.

(** [context.report({ node: importer, messageId: 'cycle', data })]. *)
Definition searchCycle (importer : Importer) (imported : ExportMap)
    (traversed : gset string) : option Report * gset string :=
  let '(found, traversed') := findRoute imported traversed in
  (option_map (λ rt, mkReport importer (reportData rt)) found, traversed').

(** From [ExportMap.get] on: the import is resolved, self-imports and
    imports into another component are left alone, the rest is searched. *)
Definition checkImported (sourceValue : string) (importer : Importer)
    (traversed : gset string) : option Report * gset string :=
  match exportMapGet env sourceValue with
  | None => (None, traversed)
  | Some imported =>
    if bool_decide (path imported = filename) then (None, traversed)
    else if negb (hasDependencyCycle imported) then (None, traversed)
    else searchCycle importer imported traversed
  end.

Definition checkSourceValue (sourceValue : string) (importer : Importer)
    (traversed : gset string) : option Report * gset string :=
  if ignoreModule sourceValue then (None, traversed)
  else if dynamicImportAllowed importer then (None, traversed)
  else if isTypeImport importer then (None, traversed)
  else checkImported sourceValue importer traversed.

(** The visitor calls [checkSourceValue] on the declarations of the file in
    document order; the reports are collected in that order. *)
Fixpoint visitImports (decls : list (string * Importer)) (traversed : gset string)
    : list Report * gset string :=
  match decls with
  | [] => ([], traversed)
  | (sourceValue, importer) :: rest =>
    let '(r, traversed') := checkSourceValue sourceValue importer traversed in
    let '(rs, traversed'') := visitImports rest traversed' in
    (option_list r ++ rs, traversed'')
  end.

(** One file: [create] registers no handler for [<text>]; otherwise the
    declarations are visited and [Program:exit] clears [traversed]. *)
Definition lintFile (decls : list (string * Importer)) (traversed : gset string)
    : list Report * gset string :=
  if bool_decide (filename = "<text>") then ([], traversed)
  else
    let '(reports, _) := visitImports decls traversed in
    (reports, ∅).
End Rule.

(** A run of the linter: the files one after the other, on the one
    module-level [traversed] set. *)
Record File := mkFile {
  file_name : string;
  file_env : Env;
  file_imports : list (string * Importer) }.

Fixpoint lintFiles (options : Options) (files : list File) (traversed : gset string)
    : list (list Report) * gset string :=
  match files with
  | [] => ([], traversed)
  | f :: rest =>
    let '(rs, traversed') :=
      lintFile options (file_env f) (file_name f) (file_imports f) traversed in
    let '(rss, traversed'') := lintFiles options rest traversed' in
    (rs :: rss, traversed'')
  end.

(** ** Cycles of the module graph

    The notions the properties of the search are stated with. *)

#[global] Instance Source_eq_dec : EqDecision Source.
Proof. solve_decision. Defined.
#[global] Instance DeclarationMetadata_eq_dec : EqDecision DeclarationMetadata.
Proof. solve_decision. Defined.
#[global] Instance ImportEdge_eq_dec : EqDecision ImportEdge.
Proof. solve_decision. Defined.
#[global] Instance ExportMap_eq_dec : EqDecision ExportMap.
Proof. solve_decision. Defined.

Section Graph.
Variable options : Options.
Variable env : Env.
Variable filename : string.

(** An edge qualifies when some declaration survives the external and
    type-only filters ([toTraverse.length > 0]). *)
Definition qualifies (e : ImportEdge) : bool :=
  0 <? length (toTraverse options env (declarations e)).

Definition closingEdge (m : ExportMap) : bool :=
  existsb (λ pe, bool_decide (pe.1 = filename) && qualifies pe.2) (imports m).

(** [closesIn ok h m]: from module [m], [h] qualifying edges lead back to
    the linted file, the last of them being the closing edge, through
    modules that satisfy [ok].  The hops are counted from the target of the
    checked import: the route of such a cycle has [h - 1] entries. *)
Fixpoint closesIn (ok : ExportMap → bool) (h : nat) (m : ExportMap) : bool :=
  match h with
  | 0 => false
  | S h' =>
    ok m &&
    (((h' =? 0) && closingEdge m) ||
     existsb (λ pe, qualifies pe.2 &&
                    match modules env !! getter pe.2 with
                    | Some m' => closesIn ok h' m'
                    | None => false
                    end)
             (imports m))
  end.

Definition anyModule (m : ExportMap) : bool := true.

Definition notTraversed (traversed : gset string) (m : ExportMap) : bool :=
  bool_decide (path m ∉ traversed).

(** A module is exempt when the dynamic escape is on and one of its edges
    has a dynamic qualifying declaration. *)
Definition exempt (m : ExportMap) : bool :=
  allowUnsafeDynamicCyclicDependency options &&
  existsb (λ pe, existsb dynamic (toTraverse options env (declarations pe.2)))
          (imports m).

Definition notExempt (m : ExportMap) : bool := negb (exempt m).

(** [within h d]: [h] hops fit into [maxDepth = d]. *)
Definition within (h : nat) (d : Depth) : Prop :=
  match d with
  | Finite k => h ≤ k
  | Infinity => True
  end.

(** The invariants of the module cache: a node is stored under its own
    path, the getter of an edge resolves the path the edge is keyed by, and
    the target of the checked import is the cached node. *)
Definition wellFormed (imported : ExportMap) : bool :=
  forallb (λ gm : string * ExportMap,
             String.eqb (path gm.2) gm.1 &&
             forallb (λ pe : string * ImportEdge, String.eqb (getter pe.2) pe.1)
                     (imports gm.2))
          (map_to_list (modules env)) &&
  bool_decide (modules env !! path imported = Some imported).

(** A frontier item continues a route from the target of the import through
    modules that were not yet traversed when the check began. *)
Definition continues (imported : ExportMap) (visited : gset string)
    (t : Traverser) : Prop :=
  ∀ m h, force env (mget t) = Some m →
         closesIn (notTraversed visited) h m = true →
         closesIn (notTraversed visited) (length (route t) + h) imported = true.

(** The modules a cycle that the search cannot miss runs through: not
    exempt, and not traversed yet. *)
Definition live (traversed : gset string) (m : ExportMap) : bool :=
  notExempt m && notTraversed traversed m.

Definition cached (m : ExportMap) : Prop := modules env !! path m = Some m.

(** The frontier of a breadth-first search holds routes of the length of
    its head, followed by routes one entry longer. *)
Definition layered (q : list Traverser) : Prop :=
  match q with
  | [] => True
  | hd :: _ =>
    ∃ A B, q = A ++ B ∧
           Forall (λ t, length (route t) = length (route hd)) A ∧
           Forall (λ t, length (route t) = S (length (route hd))) B
  end.

(** The edges of a module with the type-only declarations taken out. *)
Definition dropTypeOnly (es : list (string * ImportEdge)) : list (string * ImportEdge) :=
  map (λ pe, (pe.1, mkEdge (getter pe.2)
                           (List.filter (λ d, negb (isOnlyImportingTypes d))
                                        (declarations pe.2))))
      es.

(** What one run of the edge loop appends to the frontier. *)
Definition pushed (traversed : gset string) (rt : list Source)
    (es : list (string * ImportEdge)) : list Traverser :=
  (scanImports options env filename traversed rt es []).2.

(** The measure of the loop. *)
Definition weight (t : Traverser) : nat :=
  match mget t with
  | Ready m => S (outDegree m)
  | Deferred _ => 1
  end.

(** Declarations of the cached modules that were not expanded yet. *)
Definition pending (traversed : gset string) : nat :=
  sum_list_with
    (λ gm : string * ExportMap,
       if bool_decide (path gm.2 ∈ traversed) then 0 else outDegree gm.2)
    (map_to_list (modules env)).

Definition potential (traversed : gset string) (untraversed : list Traverser) : nat :=
  sum_list_with weight untraversed + pending traversed.
End Graph.

(** ** Variations of the inputs

    The same rule run without a component map, with another external
    classifier or with another [maxDepth]. *)

Definition withoutScc (env : Env) : Env :=
  mkEnv (isExternalModule env) (exportMapGet env) (modules env) None.

Definition withClassifier (classify : string → bool) (env : Env) : Env :=
  mkEnv classify (exportMapGet env) (modules env) (scc env).

Definition withMaxDepth (d : Depth) (options : Options) : Options :=
  mkOptions (allowUnsafeDynamicCyclicDependency options) (ignoreExternal options) d.

Definition depth_le (d d' : Depth) : Prop :=
  match d, d' with
  | Finite k, Finite k' => k ≤ k'
  | _, Infinity => True
  | Infinity, Finite _ => False
  end.

(** The frontier items whose route is short enough for [maxDepth = d]. *)
Definition kept (d : Depth) (t : Traverser) : bool := depth_lt (length (route t)) d.

(** The edges of a module with the declarations of ignored sources taken
    out. *)
Definition dropIgnored (options : Options) (env : Env)
    (es : list (string * ImportEdge)) : list (string * ImportEdge) :=
  map (λ pe, (pe.1, mkEdge (getter pe.2)
                           (List.filter
                              (λ d, negb (ignoreModule options env (value (source d))))
                              (declarations pe.2))))
      es.

(** The modules the search can meet: the target of the import and the
    cached ones. *)
Definition knownModule (env : Env) (imported m : ExportMap) : Prop :=
  m = imported ∨ ∃ g, modules env !! g = Some m.

(** The sources a route can be made of: those of the qualifying
    declarations of the known modules. *)
Definition declaredSource (options : Options) (env : Env) (imported : ExportMap)
    (s : Source) : Prop :=
  ∃ m p e d, knownModule env imported m ∧ (p, e) ∈ imports m ∧
             d ∈ toTraverse options env (declarations e) ∧ source d = s.

(** One entry of a rendered route. *)
Definition routeEntry (s : Source) : string :=
  (value s +:+ ":" +:+ line_string (line s))%string.

(** ** Scenarios *)

Module Scenario.
Definition static (v : string) (l : nat) : DeclarationMetadata :=
  mkDecl (mkSource v l) false false.
Definition viaImport (v : string) (l : nat) : DeclarationMetadata :=
  mkDecl (mkSource v l) false true.
Definition edge (p : string) (ds : list DeclarationMetadata) : string * ImportEdge :=
  (p, mkEdge p ds).
Definition cache (ms : list ExportMap) : gmap string ExportMap :=
  list_to_map (map (λ m, (path m, m)) ms).
(** Specifiers are the module names themselves; nothing is external and
    there is no component map unless stated. *)
Definition world (ms : list ExportMap) : Env :=
  mkEnv (λ _, false) (λ v, cache ms !! v) (cache ms) None.
Definition plain (d : Depth) : Options := mkOptions false false d.
Definition valueImport : Importer :=
  ImportDeclaration (Some KindValue) [mkSpecifier (Some KindValue)].

(** a imports b, b imports a. *)
Definition two (la lb : nat) : list ExportMap :=
  [ mkExportMap "a" [edge "b" [static "b" la]];
    mkExportMap "b" [edge "a" [static "a" lb]] ].

(** a imports b, b imports c, c imports a. *)
Definition three : list ExportMap :=
  [ mkExportMap "a" [edge "b" [static "b" 1]];
    mkExportMap "b" [edge "c" [static "c" 4]];
    mkExportMap "c" [edge "a" [static "a" 7]] ].

(** a imports c and then b; c imports nothing; b imports a statically and
    c dynamically, the edge of the [import()] standing first among the
    edges of b. *)
Definition visited_dynamic : list ExportMap :=
  [ mkExportMap "a" [edge "c" [static "c" 1]; edge "b" [static "b" 2]];
    mkExportMap "b" [edge "c" [viaImport "c" 2]; edge "a" [static "a" 1]];
    mkExportMap "c" [] ].

(** The same modules with their components: a and b import each other, c
    is on its own. *)
Definition visited_dynamicWorld : Env :=
  mkEnv (λ _, false) (λ v, cache visited_dynamic !! v) (cache visited_dynamic)
        (Some (list_to_map [("a", 0); ("b", 0); ("c", 1)])).

(** a imports x and then c; x imports y, y imports z, z imports a; c
    imports z. *)
Definition deepening : list ExportMap :=
  [ mkExportMap "a" [edge "x" [static "x" 1]; edge "c" [static "c" 2]];
    mkExportMap "x" [edge "y" [static "y" 1]];
    mkExportMap "y" [edge "z" [static "z" 1]];
    mkExportMap "z" [edge "a" [static "a" 1]];
    mkExportMap "c" [edge "z" [static "z" 1]] ].

(** a imports b and then c; b imports a; c imports b and e; e imports f;
    f imports a. *)
Definition shared : list ExportMap :=
  [ mkExportMap "a" [edge "b" [static "b" 1]; edge "c" [static "c" 2]];
    mkExportMap "b" [edge "a" [static "a" 1]];
    mkExportMap "c" [edge "b" [static "b" 1]; edge "e" [static "e" 2]];
    mkExportMap "e" [edge "f" [static "f" 1]];
    mkExportMap "f" [edge "a" [static "a" 1]] ].

(** a imports b and then c; b imports a; c imports b. *)
Definition revisit : list ExportMap :=
  [ mkExportMap "a" [edge "b" [static "b" 1]; edge "c" [static "c" 2]];
    mkExportMap "b" [edge "a" [static "a" 1]];
    mkExportMap "c" [edge "b" [static "b" 1]] ].

(** a imports b; b and c import each other: a is a component of its own. *)
Definition oneWay : list ExportMap :=
  [ mkExportMap "a" [edge "b" [static "b" 1]];
    mkExportMap "b" [edge "c" [static "c" 1]];
    mkExportMap "c" [edge "b" [static "b" 1]] ].
Definition oneWayWorld : Env :=
  mkEnv (λ _, false) (λ v, cache oneWay !! v) (cache oneWay)
        (Some (list_to_map [("a", 0); ("b", 1); ("c", 1)])).

(** a imports b; b imports c dynamically and then a statically. *)
Definition early_dynamic : list ExportMap :=
  [ mkExportMap "a" [edge "b" [static "b" 1]];
    mkExportMap "b" [edge "c" [viaImport "c" 1]; edge "a" [static "a" 2]];
    mkExportMap "c" [] ].

(** a imports b; b imports types of a only. *)
Definition type_back : list ExportMap :=
  [ mkExportMap "a" [edge "b" [static "b" 1]];
    mkExportMap "b" [edge "a" [mkDecl (mkSource "a" 1) true false]] ].

(** The two-module cycle with a component map that joins a and b. *)
Definition twoWorld : Env :=
  mkEnv (λ _, false) (λ v, cache (two 1 3) !! v) (cache (two 1 3))
        (Some (list_to_map [("a", 0); ("b", 0)])).

(** The two-module cycle where everything is classified external. *)
Definition externalWorld : Env :=
  mkEnv (λ _, true) (λ v, cache (two 1 3) !! v) (cache (two 1 3)) None.

Definition moduleAt (ms : list ExportMap) (p : string) : ExportMap :=
  default (mkExportMap p []) (cache ms !! p).
End Scenario.

(** ** Properties of the search *)

Section Properties.
Variable options : Options.
Variable env : Env.
Variable filename : string.

Abbreviation toTraverse := (toTraverse options env).
Abbreviation scanImports := (scanImports options env filename).
Abbreviation detectCycle := (detectCycle options env filename).
Abbreviation bfs := (bfs options env filename).
Abbreviation pushed := (pushed options env filename).
Abbreviation pending := (pending env).
Abbreviation potential := (potential env).
Abbreviation qualifies := (qualifies options env).
Abbreviation closingEdge := (closingEdge options env filename).
Abbreviation closesIn := (closesIn options env filename).
Abbreviation findRoute := (findRoute options env filename).
Abbreviation notExempt := (notExempt options env).
Abbreviation live := (live options env).
Abbreviation cached := (cached env).
Abbreviation continues := (continues options env filename).
Abbreviation searchCycle := (searchCycle options env filename).

(** *** The edge loop *)

(** The loop only ever appends to the frontier. *)
Lemma scanImports_app traversed rt es untraversed :
  scanImports traversed rt es untraversed =
  ((scanImports traversed rt es []).1,
   untraversed ++ (scanImports traversed rt es []).2).
Proof.
  revert untraversed.
  induction es as [|[p e] es IH]; intros untraversed; simpl.
  - by rewrite app_nil_r.
  - repeat case_match; simpl; rewrite ?app_nil_r; try done.
    rewrite IH. symmetry. rewrite IH. simpl. by rewrite app_assoc.
Qed.

Lemma scanImports_found traversed rt es untraversed :
  (scanImports traversed rt es untraversed).1 = (scanImports traversed rt es []).1.
Proof. by rewrite scanImports_app. Qed.

Lemma toTraverse_length ds : length (toTraverse ds) ≤ length ds.
Proof. apply List.filter_length_le. Qed.

(** Every pushed item holds a getter, and there is at most one per
    declaration. *)
Lemma pushed_length traversed rt es :
  length (pushed traversed rt es) ≤ edgesDegree es.
Proof.
  unfold pushed. induction es as [|[p e] es IH]; simpl; [lia|].
  unfold edgesDegree in *. simpl.
  repeat case_match; simpl; try lia.
  rewrite scanImports_app. simpl. rewrite length_app, length_map.
  pose proof (toTraverse_length (declarations e)). lia.
Qed.

Lemma pushed_deferred traversed rt es t :
  t ∈ pushed traversed rt es → ∃ g, mget t = Deferred g.
Proof.
  unfold pushed. induction es as [|[p e] es IH]; simpl.
  - by intros ?%elem_of_nil.
  - repeat case_match; simpl; try (by intros ?%elem_of_nil); try done.
    rewrite scanImports_app. simpl. intros [Hin|Hin]%elem_of_app; [|by auto].
    apply list_elem_of_fmap in Hin as (d & -> & _). by eexists.
Qed.

(** *** The loop terminates *)

Lemma weight_pos t : 0 < weight t.
Proof. unfold weight. destruct (mget t); lia. Qed.

Lemma weight_pushed traversed rt es :
  sum_list_with weight (pushed traversed rt es) ≤ edgesDegree es.
Proof.
  etrans; [|apply (pushed_length traversed rt es)].
  assert (Hall : Forall (λ t, weight t = 1) (pushed traversed rt es)).
  { apply Forall_forall. intros t [g Hg]%pushed_deferred. unfold weight. by rewrite Hg. }
  induction Hall as [|t l Ht _ IH]; simpl; lia.
Qed.

Lemma sum_list_pointwise {A} (f g : A → nat) (l : list A) :
  (∀ x, x ∈ l → f x ≤ g x) → sum_list_with f l ≤ sum_list_with g l.
Proof.
  induction l as [|x l IH]; simpl; intros H; [lia|].
  pose proof (H x (list_elem_of_here _ _)).
  assert (sum_list_with f l ≤ sum_list_with g l); [|lia].
  apply IH. intros y Hy. apply H. by apply list_elem_of_further.
Qed.

Lemma pending_mono traversed x : pending ({[x]} ∪ traversed) ≤ pending traversed.
Proof.
  apply sum_list_pointwise. intros [g m] _. simpl.
  repeat case_bool_decide; try lia. set_solver.
Qed.

Lemma pending_expand traversed g m :
  modules env !! g = Some m → path m ∉ traversed →
  pending ({[path m]} ∪ traversed) + outDegree m ≤ pending traversed.
Proof.
  intros Hg Hm. unfold pending.
  apply elem_of_map_to_list in Hg.
  apply list_elem_of_split in Hg as (l1 & l2 & ->).
  rewrite !sum_list_with_app. simpl.
  rewrite bool_decide_true by set_solver.
  rewrite (bool_decide_false (path m ∈ traversed)) by done.
  pose proof (sum_list_pointwise
    (λ gm : string * ExportMap,
       if bool_decide (path gm.2 ∈ {[path m]} ∪ traversed) then 0 else outDegree gm.2)
    (λ gm : string * ExportMap,
       if bool_decide (path gm.2 ∈ traversed) then 0 else outDegree gm.2)) as Hle.
  assert (Hpt : ∀ (l : list (string * ExportMap)) (x : string * ExportMap), x ∈ l →
    (if bool_decide (path x.2 ∈ {[path m]} ∪ traversed) then 0 else outDegree x.2) ≤
    (if bool_decide (path x.2 ∈ traversed) then 0 else outDegree x.2)).
  { intros l x _. repeat case_bool_decide; try lia. set_solver. }
  pose proof (Hle l1 (Hpt l1)). pose proof (Hle l2 (Hpt l2)). lia.
Qed.

(** One turn of the loop that does not report lowers the potential. *)
Lemma detectCycle_potential traversed rest next traversed' untraversed' :
  detectCycle traversed rest next = (false, traversed', untraversed') →
  potential traversed' untraversed' < potential traversed (next :: rest).
Proof.
  unfold detectCycle, potential.
  change (sum_list_with weight (next :: rest))
    with (weight next + sum_list_with weight rest).
  destruct (force env (mget next)) as [m|] eqn:Hforce.
  2:{ intros [= <- <-]. pose proof (weight_pos next). lia. }
  case_bool_decide as Hin.
  { intros [= <- <-]. pose proof (weight_pos next). lia. }
  rewrite scanImports_app. intros [= _ <- <-].
  rewrite sum_list_with_app.
  pose proof (weight_pushed ({[path m]} ∪ traversed) (route next) (imports m)) as Hw.
  assert (pending ({[path m]} ∪ traversed) + edgesDegree (imports m)
          < weight next + pending traversed) as Hlt.
  2:{ unfold pushed in Hw. lia. }
  unfold weight. destruct (mget next) as [m'|g]; simpl in Hforce.
  - injection Hforce as ->. pose proof (pending_mono traversed (path m)).
    unfold outDegree. lia.
  - pose proof (pending_expand traversed g m Hforce Hin) as He.
    unfold outDegree in He. lia.
Qed.

Lemma bfs_fuel fuel traversed untraversed :
  potential traversed untraversed < fuel → is_Some (bfs fuel traversed untraversed).
Proof.
  revert traversed untraversed.
  induction fuel as [|fuel IH]; intros traversed untraversed Hlt; [lia|].
  simpl. destruct untraversed as [|next rest]; [by eexists|].
  destruct (detectCycle traversed rest next) as [[found traversed'] untraversed'] eqn:Hd.
  destruct found; [by eexists|].
  apply IH. apply detectCycle_potential in Hd. lia.
Qed.

Lemma bfs_fuel_mono fuel fuel' traversed untraversed r :
  bfs fuel traversed untraversed = Some r → fuel ≤ fuel' →
  bfs fuel' traversed untraversed = Some r.
Proof.
  revert fuel' traversed untraversed.
  induction fuel as [|fuel IH]; intros fuel' traversed untraversed; [done|].
  destruct fuel' as [|fuel']; [lia|]. simpl.
  destruct untraversed as [|next rest]; [done|].
  destruct (detectCycle traversed rest next) as [[found traversed'] untraversed'].
  destruct found; [done|]. intros H ?. apply IH; [done|lia].
Qed.

Lemma enoughFuel_potential imported traversed :
  potential traversed [mkTraverser (Ready imported) []] < enoughFuel env imported.
Proof.
  unfold potential, enoughFuel, weight. simpl.
  assert (pending traversed ≤ sum_list_with (λ gm, outDegree gm.2) (map_to_list (modules env))).
  { apply sum_list_pointwise. intros [g m] _. simpl. case_bool_decide; lia. }
  lia.
Qed.

(** The search of [checkSourceValue] always comes to an end, and more fuel
    would not change its outcome. *)
Lemma search_terminates imported traversed :
  ∃ r, ∀ fuel, enoughFuel env imported ≤ fuel →
    bfs fuel traversed [mkTraverser (Ready imported) []] = Some r.
Proof.
  destruct (bfs_fuel _ _ _ (enoughFuel_potential imported traversed)) as [r Hr].
  exists r. intros fuel Hle. by eapply bfs_fuel_mono.
Qed.

(** *** Cycles *)

Lemma closesIn_here ok m :
  ok m = true → closingEdge m = true → closesIn ok 1 m = true.
Proof. intros Hok Hc. simpl. by rewrite Hok, Hc. Qed.

Lemma closesIn_step ok m p e m' h :
  ok m = true → (p, e) ∈ imports m → qualifies e = true →
  modules env !! getter e = Some m' → closesIn ok h m' = true →
  closesIn ok (S h) m = true.
Proof.
  intros Hok Hin Hq Hm' Hc. simpl. rewrite Hok. simpl.
  apply orb_true_iff. right. apply existsb_exists.
  exists (p, e). split; [by apply list_elem_of_In|]. simpl. by rewrite Hq, Hm'.
Qed.

Lemma closesIn_inv ok m h :
  closesIn ok (S h) m = true →
  ok m = true ∧
  ((h = 0 ∧ closingEdge m = true) ∨
   (∃ p e m', (p, e) ∈ imports m ∧ qualifies e = true ∧
              modules env !! getter e = Some m' ∧ closesIn ok h m' = true)).
Proof.
  simpl. intros [Hok H]%andb_true_iff. split; [done|].
  apply orb_true_iff in H as [[Hh Hc]%andb_true_iff|H].
  - left. by apply Nat.eqb_eq in Hh.
  - right. apply existsb_exists in H as ([p e] & Hin & [Hq H]%andb_true_iff).
    simpl in *. destruct (modules env !! getter e) as [m'|] eqn:Hm'; [|done].
    exists p, e, m'. by rewrite list_elem_of_In.
Qed.

Lemma closesIn_ok ok m h : closesIn ok h m = true → ok m = true ∧ 1 ≤ h.
Proof.
  destruct h as [|h]; [done|]. intros [? _]%closesIn_inv. split; [done|lia].
Qed.

Lemma closesIn_weaken (ok ok' : ExportMap → bool) h m :
  (∀ x, ok x = true → ok' x = true) →
  closesIn ok h m = true → closesIn ok' h m = true.
Proof.
  intros Himp. revert m. induction h as [|h IH]; intros m; [done|].
  intros (Hok & [[-> Hc]|(p & e & m' & Hin & Hq & Hm' & Hc)])%closesIn_inv.
  - apply closesIn_here; auto.
  - eapply closesIn_step; eauto.
Qed.

Lemma closingEdge_spec m :
  closingEdge m = true ↔ ∃ e, (filename, e) ∈ imports m ∧ qualifies e = true.
Proof.
  unfold closingEdge. rewrite existsb_exists. split.
  - intros ([p e] & Hin & [Hp Hq]%andb_true_iff). simpl in *.
    apply bool_decide_eq_true in Hp as ->. exists e. by rewrite list_elem_of_In.
  - intros (e & Hin & Hq). exists (filename, e). simpl.
    rewrite <-list_elem_of_In, Hq, bool_decide_true; done.
Qed.

Lemma qualifies_elem e :
  qualifies e = true ↔ ∃ d, d ∈ toTraverse (declarations e).
Proof.
  unfold qualifies. rewrite Nat.ltb_lt. destruct (toTraverse (declarations e)) as [|d l].
  - simpl. split; [lia|]. by intros [d ?%elem_of_nil].
  - simpl. split; [|lia]. intros _. exists d. apply list_elem_of_here.
Qed.

Lemma within_mono h h' d : h ≤ h' → within h' d → within h d.
Proof. destruct d as [k|]; simpl; [lia|done]. Qed.

Lemma depth_lt_within n d : depth_lt n d = true ↔ within (S n) d.
Proof. destruct d as [k|]; simpl; [|done]. by rewrite Nat.ltb_lt. Qed.

(** *** What one run of the edge loop does *)

(** A report comes from a qualifying edge back to the linted file. *)
Lemma scanImports_true traversed rt es :
  (scanImports traversed rt es []).1 = true →
  ∃ e, (filename, e) ∈ es ∧ qualifies e = true.
Proof.
  induction es as [|[p e] es IH]; simpl; [done|].
  assert (Hrest : (∃ e0, (filename, e0) ∈ es ∧ qualifies e0 = true) →
                  ∃ e0, (filename, e0) ∈ (p, e) :: es ∧ qualifies e0 = true).
  { intros (e0 & ? & ?). exists e0. split; [by apply list_elem_of_further|done]. }
  case_bool_decide; [by auto|].
  destruct (andb _ (existsb _ _)); [done|].
  destruct (andb (bool_decide (p = filename)) _) eqn:Hclose.
  - intros _. apply andb_true_iff in Hclose as [->%bool_decide_eq_true Hq].
    exists e. split; [apply list_elem_of_here|done].
  - destruct (depth_lt _ _); [|by auto].
    rewrite scanImports_found. auto.
Qed.

(** A pushed item extends the route by a declaration of a qualifying edge
    to a path that is not traversed and is not the linted file. *)
Lemma pushed_inv traversed rt es t :
  t ∈ pushed traversed rt es →
  ∃ p e d, (p, e) ∈ es ∧ d ∈ toTraverse (declarations e) ∧
           t = mkTraverser (Deferred (getter e)) (rt ++ [source d]) ∧
           depth_lt (length rt + 1) (maxDepth options) = true ∧
           (p ∉ traversed) ∧ p ≠ filename.
Proof.
  unfold pushed. induction es as [|[p e] es IH]; simpl; [by intros ?%elem_of_nil|].
  assert (Hrest : t ∈ (scanImports traversed rt es []).2 →
    ∃ p0 e0 d, (p0, e0) ∈ (p, e) :: es ∧ d ∈ toTraverse (declarations e0) ∧
      t = mkTraverser (Deferred (getter e0)) (rt ++ [source d]) ∧
      depth_lt (length rt + 1) (maxDepth options) = true ∧
      (p0 ∉ traversed) ∧ p0 ≠ filename).
  { intros (p0 & e0 & d & ? & ?)%IH. exists p0, e0, d.
    split; [by apply list_elem_of_further|done]. }
  case_bool_decide as Hp; [done|].
  destruct (andb _ (existsb _ _)); [by intros ?%elem_of_nil|].
  destruct (andb (bool_decide (p = filename)) _) eqn:Hclose; [by intros ?%elem_of_nil|].
  destruct (depth_lt _ _) eqn:Hdepth; [|done].
  rewrite scanImports_app. simpl. intros [Hin|Hin]%elem_of_app; [|by auto].
  apply list_elem_of_fmap in Hin as (d & -> & Hd).
  exists p, e, d. split_and!; try done; [apply list_elem_of_here|].
  intros ->. rewrite bool_decide_true in Hclose by done. simpl in Hclose.
  apply Nat.ltb_ge in Hclose. destruct (toTraverse (declarations e)); simpl in *; [|lia].
  by apply elem_of_nil in Hd.
Qed.

(** With the dynamic escape on, the loop stops at the first edge to a path
    not traversed that has a dynamic qualifying declaration: that edge and
    the edges after it push nothing and close no cycle. *)
Lemma scanImports_escape traversed rt p e rest untraversed :
  allowUnsafeDynamicCyclicDependency options = true → p ∉ traversed →
  existsb dynamic (toTraverse (declarations e)) = true →
  scanImports traversed rt ((p, e) :: rest) untraversed = (false, untraversed).
Proof.
  intros Hallow Hp Hdyn. simpl.
  by rewrite bool_decide_false, Hallow, Hdyn by done.
Qed.

(** *** The search is sound *)

Lemma detectCycle_cases traversed rest next :
  (detectCycle traversed rest next = (false, traversed, rest) ∧
   ∀ m, force env (mget next) = Some m → path m ∈ traversed) ∨
  (∃ m, force env (mget next) = Some m ∧ (path m ∉ traversed) ∧
        detectCycle traversed rest next =
        ((scanImports ({[path m]} ∪ traversed) (route next) (imports m) []).1,
         {[path m]} ∪ traversed,
         rest ++ pushed ({[path m]} ∪ traversed) (route next) (imports m))).
Proof.
  unfold detectCycle. destruct (force env (mget next)) as [m|]; [|by left].
  case_bool_decide as Hin.
  - left. split; [done|]. by intros ? [= <-].
  - right. exists m. split_and!; try done. by rewrite scanImports_app.
Qed.

Lemma bfs_traversed_mono fuel traversed untraversed r traversed' :
  bfs fuel traversed untraversed = Some (r, traversed') → traversed ⊆ traversed'.
Proof.
  revert traversed untraversed.
  induction fuel as [|fuel IH]; intros traversed untraversed; [done|]. simpl.
  destruct untraversed as [|next rest]; [by intros [= _ <-]|].
  destruct (detectCycle_cases traversed rest next) as [[-> _]|(m & _ & _ & ->)].
  - apply IH.
  - destruct (scanImports _ _ _ _).1.
    + intros [= _ <-]. set_solver.
    + intros ?%IH. set_solver.
Qed.

Section Sound.
Variable imported : ExportMap.
Variable visited : gset string.

Lemma bfs_sound fuel traversed untraversed rt traversed' :
  visited ⊆ traversed →
  Forall (continues imported visited) untraversed →
  bfs fuel traversed untraversed = Some (Some rt, traversed') →
  closesIn (notTraversed visited) (S (length rt)) imported = true.
Proof.
  revert traversed untraversed.
  induction fuel as [|fuel IH]; intros traversed untraversed Hsub Hcont Hbfs.
  { discriminate. }
  simpl in Hbfs. destruct untraversed as [|next rest]; [discriminate|].
  apply Forall_cons in Hcont as [Hnext Hcont].
  destruct (detectCycle_cases traversed rest next) as [[Hd _]|(m & Hm & Hfresh & Hd)];
    rewrite Hd in Hbfs.
  { by eapply IH. }
  assert (Hok : notTraversed visited m = true).
  { unfold notTraversed. apply bool_decide_eq_true. set_solver. }
  destruct (scanImports _ _ _ _).1 eqn:Hfound.
  - injection Hbfs as <- _.
    apply scanImports_true in Hfound. apply closingEdge_spec in Hfound.
    replace (S (length (route next))) with (length (route next) + 1) by lia.
    apply (Hnext m 1 Hm). by apply closesIn_here.
  - eapply IH; [| |exact Hbfs]; [set_solver|].
    apply Forall_app. split; [done|]. apply Forall_forall.
    intros t (p & e & d & Hin & Hd' & -> & _)%pushed_inv m' h Hm' Hc.
    cbn [route mget force] in *. rewrite length_app. cbn [length].
    replace (length (route next) + 1 + h) with (length (route next) + S h) by lia.
    apply (Hnext m _ Hm). eapply closesIn_step; eauto.
    apply qualifies_elem. eauto.
Qed.
End Sound.

(** The routes of the frontier stay below [maxDepth]. *)
Lemma bfs_within fuel traversed untraversed rt traversed' :
  Forall (λ t, within (S (length (route t))) (maxDepth options)) untraversed →
  bfs fuel traversed untraversed = Some (Some rt, traversed') →
  within (S (length rt)) (maxDepth options).
Proof.
  revert traversed untraversed.
  induction fuel as [|fuel IH]; intros traversed untraversed Hdepth Hbfs.
  { discriminate. }
  simpl in Hbfs. destruct untraversed as [|next rest]; [discriminate|].
  apply Forall_cons in Hdepth as [Hdnext Hdepth].
  destruct (detectCycle_cases traversed rest next) as [[Hd _]|(m & Hm & Hfresh & Hd)];
    rewrite Hd in Hbfs.
  { by eapply IH. }
  destruct (scanImports _ _ _ _).1 eqn:Hfound.
  - by injection Hbfs as <- _.
  - eapply IH; [|exact Hbfs].
    apply Forall_app. split; [done|]. apply Forall_forall.
    intros t (p & e & d & _ & _ & -> & Hlt & _)%pushed_inv. cbn [route].
    rewrite length_app. cbn [length]. apply depth_lt_within in Hlt.
    by replace (length (route next) + 1) with (S (length (route next))) in * by lia.
Qed.

Lemma findRoute_bfs imported traversed :
  bfs (enoughFuel env imported) traversed [mkTraverser (Ready imported) []]
  = Some (findRoute imported traversed).
Proof.
  unfold findRoute.
  destruct (search_terminates imported traversed) as [r Hr].
  by rewrite (Hr _ (Nat.le_refl _)).
Qed.

(** A reported route is a qualifying cycle through modules that were not
    traversed when the check began, and it is within [maxDepth]. *)
Lemma findRoute_sound imported traversed rt traversed' :
  findRoute imported traversed = (Some rt, traversed') →
  closesIn (notTraversed traversed) (S (length rt)) imported = true.
Proof.
  intros Hfind. pose proof (findRoute_bfs imported traversed) as Hbfs.
  rewrite Hfind in Hbfs.
  eapply bfs_sound; [done| |exact Hbfs].
  apply Forall_singleton. intros m h [= <-] Hc. done.
Qed.

Lemma findRoute_within imported traversed rt traversed' :
  within 1 (maxDepth options) →
  findRoute imported traversed = (Some rt, traversed') →
  within (S (length rt)) (maxDepth options).
Proof.
  intros Hone Hfind. pose proof (findRoute_bfs imported traversed) as Hbfs.
  rewrite Hfind in Hbfs.
  eapply bfs_within; [|exact Hbfs]. by apply Forall_singleton.
Qed.

Lemma findRoute_mono imported traversed :
  traversed ⊆ (findRoute imported traversed).2.
Proof.
  pose proof (findRoute_bfs imported traversed) as Hbfs.
  destruct (findRoute imported traversed) as [r traversed'].
  by apply bfs_traversed_mono in Hbfs.
Qed.

(** *** The search is complete *)

(** A run of the edge loop over a module that is not exempt, when it does
    not report: no untraversed qualifying edge closes a cycle, and within
    [maxDepth] every declaration of such an edge is pushed. *)
Lemma scanImports_false traversed rt es :
  allowUnsafeDynamicCyclicDependency options &&
    existsb (λ pe, existsb dynamic (toTraverse (declarations pe.2))) es = false →
  (scanImports traversed rt es []).1 = false →
  ∀ p e, (p, e) ∈ es → p ∉ traversed → qualifies e = true →
    p ≠ filename ∧
    (depth_lt (length rt + 1) (maxDepth options) = true →
     ∀ d, d ∈ toTraverse (declarations e) →
          mkTraverser (Deferred (getter e)) (rt ++ [source d]) ∈ pushed traversed rt es).
Proof.
  unfold pushed. induction es as [|[p0 e0] es IH]; intros Hopen Hfound p e Hin Hp Hq.
  { by apply elem_of_nil in Hin. }
  assert (Hopen0 : allowUnsafeDynamicCyclicDependency options &&
                   existsb dynamic (toTraverse (declarations e0)) = false).
  { destruct (allowUnsafeDynamicCyclicDependency options); [|done]. simpl in *.
    by apply orb_false_iff in Hopen as [? _]. }
  assert (Hopen' : allowUnsafeDynamicCyclicDependency options &&
    existsb (λ pe, existsb dynamic (toTraverse (declarations pe.2))) es = false).
  { destruct (allowUnsafeDynamicCyclicDependency options); [|done]. simpl in *.
    by apply orb_false_iff in Hopen as [_ ?]. }
  simpl in Hfound |- *. rewrite Hopen0 in Hfound |- *.
  case_bool_decide as Hp0.
  { apply elem_of_cons in Hin as [[= -> ->]|Hin]; [done|]. by apply IH. }
  destruct (andb (bool_decide (p0 = filename)) _) eqn:Hclose; [done|].
  destruct (depth_lt (length rt + 1) (maxDepth options)) eqn:Hdepth.
  - rewrite scanImports_app in Hfound |- *. simpl in Hfound |- *.
    apply elem_of_cons in Hin as [[= -> ->]|Hin].
    + split.
      * intros ->. rewrite bool_decide_true in Hclose by done.
        unfold qualifies in Hq. simpl in Hclose. congruence.
      * intros _ d Hd. apply elem_of_app. left.
        apply list_elem_of_fmap. by exists d.
    + destruct (IH Hopen' Hfound p e Hin Hp Hq) as [Hne Hpush]. split; [done|].
      intros Hd d Hdin. apply elem_of_app. right. by apply Hpush.
  - apply elem_of_cons in Hin as [[= -> ->]|Hin].
    + split; [|done].
      intros ->. rewrite bool_decide_true in Hclose by done.
      unfold qualifies in Hq. simpl in Hclose. congruence.
    + by apply IH.
Qed.

Lemma layered_head hd rest t :
  layered (hd :: rest) → t ∈ hd :: rest → length (route hd) ≤ length (route t).
Proof.
  intros (A & B & -> & HA & HB) [Hin|Hin]%elem_of_app.
  - rewrite Forall_forall in HA. rewrite (HA _ Hin). lia.
  - rewrite Forall_forall in HB. rewrite (HB _ Hin). lia.
Qed.

Lemma layered_step hd rest new :
  layered (hd :: rest) →
  Forall (λ t, length (route t) = S (length (route hd))) new →
  layered (rest ++ new).
Proof.
  intros (A & B & Heq & HA & HB) Hnew.
  destruct A as [|a A]; simpl in Heq.
  { subst B. apply Forall_cons in HB as [? _]. lia. }
  injection Heq as Ha Hrest. subst a rest.
  apply Forall_cons in HA as [_ HA].
  destruct A as [|h2 A]; simpl.
  - destruct (B ++ new) as [|h2 l] eqn:HBn; [done|].
    assert (Hall : Forall (λ t, length (route t) = S (length (route hd))) (h2 :: l)).
    { rewrite <-HBn. by apply Forall_app. }
    exists (h2 :: l), []. rewrite app_nil_r. split_and!; [done| |done].
    pose proof Hall as [Hh2 _]%Forall_cons. rewrite Hh2. done.
  - pose proof HA as [Hh2 _]%Forall_cons.
    exists (h2 :: A), (B ++ new). rewrite Hh2. split_and!.
    + by rewrite <-app_assoc.
    + done.
    + by apply Forall_app.
Qed.

Lemma layered_tail hd rest : layered (hd :: rest) → layered rest.
Proof.
  intros H. rewrite <-(app_nil_r rest). eapply layered_step; [done|]. constructor.
Qed.

Section Complete.
Variable imported : ExportMap.
Hypothesis Hwf : wellFormed env imported = true.

Lemma wf_entry g m :
  modules env !! g = Some m →
  path m = g ∧ ∀ p e, (p, e) ∈ imports m → getter e = p.
Proof.
  intros Hg. apply andb_true_iff in Hwf as [Hall _].
  rewrite forallb_forall in Hall.
  apply elem_of_map_to_list, list_elem_of_In, Hall in Hg.
  simpl in Hg. apply andb_true_iff in Hg as [Hp He].
  split; [by apply String.eqb_eq|].
  intros p e Hin. rewrite forallb_forall in He.
  apply list_elem_of_In, He in Hin. by apply String.eqb_eq in Hin.
Qed.

Lemma wf_imported : cached imported.
Proof. apply andb_true_iff in Hwf as [_ H]. by apply bool_decide_eq_true in H. Qed.

Lemma cached_target g m : modules env !! g = Some m → cached m.
Proof. intros Hg. unfold cached. by destruct (wf_entry g m Hg) as [-> _]. Qed.

Lemma cached_inj m m' : cached m → cached m' → path m = path m' → m = m'.
Proof. unfold cached. intros H H' Heq. rewrite Heq in H. congruence. Qed.

Lemma cached_getter m p e : cached m → (p, e) ∈ imports m → getter e = p.
Proof. intros Hm. by apply (wf_entry _ _ Hm). Qed.

Lemma not_elem_of_added (x y : string) (traversed : gset string) :
  y ∉ traversed → y ≠ x → y ∉ {[x]} ∪ traversed.
Proof.
  intros Hy Hne. apply not_elem_of_union. split; [|done].
  by apply not_elem_of_singleton.
Qed.

Lemma live_fresh traversed x m :
  live traversed m = true → path m ≠ x → live ({[x]} ∪ traversed) m = true.
Proof.
  unfold live, notTraversed. intros [Hn Hu]%andb_true_iff Hne.
  rewrite Hn. simpl. apply bool_decide_eq_true in Hu.
  apply bool_decide_eq_true. by apply not_elem_of_added.
Qed.

(** When a path gets traversed, a cycle through live modules either stays
    live or runs through the module of that path; from its last visit
    there, the rest of the cycle is live. *)
Lemma closesIn_refresh traversed x h m :
  cached m → closesIn (live traversed) h m = true →
  closesIn (live ({[x]} ∪ traversed)) h m = true ∨
  ∃ m1 h1, h1 ≤ h ∧ cached m1 ∧ path m1 = x ∧ live traversed m1 = true ∧
    ((h1 = 1 ∧ closingEdge m1 = true) ∨
     ∃ p e m2 h2, h1 = S h2 ∧ 1 ≤ h2 ∧ (p, e) ∈ imports m1 ∧ qualifies e = true ∧
       modules env !! getter e = Some m2 ∧
       closesIn (live ({[x]} ∪ traversed)) h2 m2 = true).
Proof.
  revert m. induction h as [|h IH]; intros m Hm Hc; [done|].
  apply closesIn_inv in Hc as (Hok & [[-> Hc]|(p & e & m' & Hin & Hq & Hm' & Hc)]).
  - destruct (decide (path m = x)) as [Hx|Hx].
    + right. exists m, 1. split_and!; try done. by left.
    + left. apply closesIn_here; [by apply live_fresh|done].
  - destruct (IH m' (cached_target _ _ Hm') Hc)
      as [Hc'|(m1 & h1 & Hle & Hm1 & Hx1 & Hlive & Htail)].
    + destruct (decide (path m = x)) as [Hx|Hx].
      * right. exists m, (S h). split_and!; try done. right.
        exists p, e, m', h. split_and!; try done.
        by apply closesIn_ok in Hc as [_ ?].
      * left. eapply closesIn_step; eauto. by apply live_fresh.
    + right. exists m1, h1. split_and!; try done. lia.
Qed.

Lemma bfs_complete H fuel traversed untraversed r traversed' :
  within H (maxDepth options) →
  filename ∉ traversed →
  Forall (λ t, ∀ m, force env (mget t) = Some m → cached m ∧ path m ≠ filename)
         untraversed →
  layered untraversed →
  (∃ t m h, t ∈ untraversed ∧ force env (mget t) = Some m ∧
            closesIn (live traversed) h m = true ∧ length (route t) + h ≤ H) →
  bfs fuel traversed untraversed = Some (r, traversed') →
  ∃ rt, r = Some rt ∧ S (length rt) ≤ H.
Proof.
  intros Hdepth. revert traversed untraversed.
  induction fuel as [|fuel IH];
    intros traversed untraversed Hfile Hnodes Hlay Hwit Hbfs; [done|].
  simpl in Hbfs. destruct untraversed as [|next rest].
  { destruct Hwit as (t & _ & _ & Hin & _). by apply elem_of_nil in Hin. }
  destruct Hwit as (t & m & h & Hin & Hm & Hc & Hlen).
  pose proof (layered_head _ _ _ Hlay Hin) as Hhead.
  pose proof (closesIn_ok _ _ _ Hc) as [Hlive Hh].
  pose proof Hnodes as [Hnext Hrest]%Forall_cons.
  assert (Hmfresh : path m ∉ traversed).
  { unfold live, notTraversed in Hlive.
    apply andb_true_iff in Hlive as [_ Hu]. by apply bool_decide_eq_true in Hu. }
  destruct (detectCycle_cases traversed rest next)
    as [[Hd Hseen]|(mn & Hmn & Hfresh & Hd)]; rewrite Hd in Hbfs.
  { (* nothing happens: the witness is further down the frontier *)
    eapply IH; [done|done|by eapply layered_tail| |exact Hbfs].
    exists t, m, h. split_and!; try done.
    apply elem_of_cons in Hin as [->|Hin]; [|done].
    by apply Hseen in Hm. }
  destruct (Hnext mn Hmn) as [Hcached Hnotfile].
  destruct (scanImports _ _ _ _).1 eqn:Hfound.
  { injection Hbfs as <- _. exists (route next). split; [done|]. lia. }
  set (traversed1 := {[path mn]} ∪ traversed) in *.
  assert (Hpushed : Forall (λ t, length (route t) = S (length (route next)))
                           (pushed traversed1 (route next) (imports mn))).
  { apply Forall_forall. intros t' (p & e & d & _ & _ & -> & _)%pushed_inv.
    cbn [route]. rewrite length_app. simpl. lia. }
  eapply IH; [| | | |exact Hbfs].
  - apply not_elem_of_added; [done|congruence].
  - apply Forall_app. split; [done|]. apply Forall_forall.
    intros t' (p & e & d & Hpe & _ & -> & _ & _ & Hne)%pushed_inv m' Hm'.
    cbn [mget force] in Hm'.
    rewrite (cached_getter _ _ _ Hcached Hpe) in Hm'.
    destruct (wf_entry _ _ Hm') as [Hpath _].
    split; [by eapply cached_target|congruence].
  - by eapply layered_step.
  - assert (Hmc : cached m).
    { rewrite Forall_forall in Hnodes. by apply (Hnodes t Hin m Hm). }
    destruct (closesIn_refresh traversed (path mn) h m Hmc Hc)
      as [Hc'|(m1 & h1 & Hle & Hm1 & Hx1 & Hlive1 & Htail)].
    + exists t, m, h. split_and!; try done.
      apply elem_of_app. left.
      apply elem_of_cons in Hin as [->|Hin]; [|done].
      apply closesIn_ok in Hc' as [Hl _]. unfold live, notTraversed in Hl.
      apply andb_true_iff in Hl as [_ Hu]. apply bool_decide_eq_true in Hu.
      assert (m = mn) as -> by congruence. exfalso. apply Hu.
      apply elem_of_union_l. by apply elem_of_singleton.
    + assert (m1 = mn) as -> by by apply cached_inj.
      assert (Hopen : allowUnsafeDynamicCyclicDependency options &&
                existsb (λ pe, existsb dynamic (toTraverse (declarations pe.2)))
                        (imports mn) = false).
      { unfold live, notExempt, exempt in Hlive1.
        apply andb_true_iff in Hlive1 as [Hn _]. by apply negb_true_iff in Hn. }
      pose proof (scanImports_false traversed1 (route next) (imports mn) Hopen Hfound)
        as Hscan.
      destruct Htail as [[_ Hclose]|(p & e & m2 & h2 & -> & Hh2 & Hpe & Hq & Hm2 & Hc2)].
      * apply closingEdge_spec in Hclose as (e & Hpe & Hq).
        destruct (Hscan filename e Hpe) as [Hne _]; [|done|done].
        apply not_elem_of_added; [done|congruence].
      * pose proof (cached_getter _ _ _ Hcached Hpe) as Hg.
        destruct (wf_entry _ _ Hm2) as [Hpath2 _].
        pose proof (closesIn_ok _ _ _ Hc2) as [Hl2 _].
        unfold live, notTraversed in Hl2.
        apply andb_true_iff in Hl2 as [_ Hu2]. apply bool_decide_eq_true in Hu2.
        destruct (Hscan p e Hpe) as [_ Hpush]; [by rewrite <-Hg, <-Hpath2|done|].
        apply qualifies_elem in Hq as [d Hdecl].
        exists (mkTraverser (Deferred (getter e)) (route next ++ [source d])), m2, h2.
        split_and!; try done.
        -- apply elem_of_app. right. apply Hpush; [|done].
           apply depth_lt_within. eapply within_mono; [|exact Hdepth]. lia.
        -- cbn [route]. rewrite length_app. simpl. lia.
Qed.
End Complete.

(** A cycle of [h] hops within [maxDepth], through modules that are neither
    exempt nor traversed yet, makes the search report a route of at most
    [h - 1] entries. *)
Lemma findRoute_complete imported traversed h :
  wellFormed env imported = true → path imported ≠ filename →
  filename ∉ traversed → within h (maxDepth options) →
  closesIn (live traversed) h imported = true →
  ∃ rt traversed',
    findRoute imported traversed = (Some rt, traversed') ∧ S (length rt) ≤ h.
Proof.
  intros Hwf Hne Hfile Hdepth Hc.
  pose proof (findRoute_bfs imported traversed) as Hbfs.
  destruct (findRoute imported traversed) as [r traversed'].
  eapply (bfs_complete imported Hwf h) in Hbfs; try done.
  - destruct Hbfs as (rt & -> & Hle). by exists rt, traversed'.
  - apply Forall_singleton. intros m [= <-]. split; [by apply wf_imported|done].
  - exists [mkTraverser (Ready imported) []], []. split_and!; [done| |done].
    by apply Forall_singleton.
  - exists (mkTraverser (Ready imported) []), imported, h. split_and!; try done.
    apply list_elem_of_here.
Qed.

Lemma within_dec h d : {within h d} + {¬ within h d}.
Proof. destruct d as [k|]; simpl; [apply le_dec|by left]. Qed.

Lemma within_bound h h' d : within h d → ¬ within h' d → h ≤ h'.
Proof. destruct d as [k|]; simpl; [lia|done]. Qed.

(** *** Reports and routes *)

Lemma searchCycle_report importer imported traversed :
  (searchCycle importer imported traversed).1
  = option_map (λ rt, mkReport importer (reportData rt))
               (findRoute imported traversed).1.
Proof. unfold searchCycle. by destruct (findRoute imported traversed). Qed.

Lemma searchCycle_traversed importer imported traversed :
  (searchCycle importer imported traversed).2 = (findRoute imported traversed).2.
Proof. unfold searchCycle. by destruct (findRoute imported traversed). Qed.

Lemma closesIn_notTraversed_any traversed h m :
  closesIn (notTraversed traversed) h m = true → closesIn anyModule h m = true.
Proof. by apply closesIn_weaken. Qed.

(** Without the dynamic escape no module is exempt. *)
Lemma closesIn_notTraversed_live traversed h m :
  allowUnsafeDynamicCyclicDependency options = false →
  closesIn (notTraversed traversed) h m = true →
  closesIn (live traversed) h m = true.
Proof.
  intros Hoff. apply closesIn_weaken. intros x Hx.
  unfold live, notExempt, exempt. by rewrite Hoff, Hx.
Qed.

(** C2. Among the qualifying cycles from the target of a checked import
    that avoid the modules already traversed (by an earlier check of the
    file) the reported route has the fewest hops: if some such cycle within
    [maxDepth] runs through modules that the dynamic escape does not
    exempt, a route is reported; the reported route is itself a qualifying
    cycle through modules that were not traversed; no such cycle through
    modules that are not exempt has fewer hops, and without the dynamic
    escape no such cycle at all has fewer hops.  (The hops of a cycle are
    counted from the target of the import, the closing edge included: one
    more than the entries of its route.) *)
Theorem shortest_untraversed_route importer imported traversed h :
  wellFormed env imported = true → path imported ≠ filename →
  filename ∉ traversed → within h (maxDepth options) →
  closesIn (live traversed) h imported = true →
  ∃ rt,
    (findRoute imported traversed).1 = Some rt ∧
    (searchCycle importer imported traversed).1
    = Some (mkReport importer (reportData rt)) ∧
    closesIn (notTraversed traversed) (S (length rt)) imported = true ∧
    (∀ h', closesIn (live traversed) h' imported = true → S (length rt) ≤ h') ∧
    (allowUnsafeDynamicCyclicDependency options = false →
     ∀ h', closesIn (notTraversed traversed) h' imported = true → S (length rt) ≤ h').
Proof.
  intros Hwf Hne Hfile Hdepth Hc.
  destruct (findRoute_complete imported traversed h Hwf Hne Hfile Hdepth Hc)
    as (rt & traversed' & Hfind & Hle).
  assert (Hone : within 1 (maxDepth options)).
  { apply closesIn_ok in Hc as [_ ?]. by eapply within_mono. }
  pose proof (findRoute_sound imported traversed rt traversed' Hfind) as Hsound.
  pose proof (findRoute_within imported traversed rt traversed' Hone Hfind) as Hin.
  assert (Hmin : ∀ h', closesIn (live traversed) h' imported = true →
                       S (length rt) ≤ h').
  { intros h' Hc'. destruct (within_dec h' (maxDepth options)) as [Hw|Hw].
    - destruct (findRoute_complete imported traversed h' Hwf Hne Hfile Hw Hc')
        as (rt' & traversed'' & Hfind' & Hle').
      rewrite Hfind in Hfind'. by injection Hfind' as <- _.
    - eapply within_bound; [exact Hin|exact Hw]. }
  exists rt. split_and!.
  - by rewrite Hfind.
  - by rewrite searchCycle_report, Hfind.
  - done.
  - done.
  - intros Hoff h' Hc'. by apply Hmin, closesIn_notTraversed_live.
Qed.

(** C3. With [maxDepth] a positive integer [k]: a cycle of exactly [k] hops
    from the target of the checked import, through modules that are not
    traversed yet (by an earlier check of the file) and that the dynamic
    escape does not exempt, is reported; and when no qualifying cycle has
    [k] hops or fewer, so that [k + 1] hops at least are required, nothing
    is reported.  (Hops as for C2: the entries of the route and one
    more.) *)
Theorem depth_boundary importer imported traversed k :
  maxDepth options = Finite k → 1 ≤ k →
  wellFormed env imported = true → path imported ≠ filename →
  filename ∉ traversed →
  (closesIn (live traversed) k imported = true →
   ∃ r, (searchCycle importer imported traversed).1 = Some r) ∧
  ((∀ h, h ≤ k → closesIn anyModule h imported = false) →
   (searchCycle importer imported traversed).1 = None).
Proof.
  intros Hk Hpos Hwf Hne Hfile. split.
  - intros Hc.
    destruct (findRoute_complete imported traversed k Hwf Hne Hfile)
      as (rt & tr' & Hfind & _); [rewrite Hk; simpl; lia|done|].
    rewrite searchCycle_report, Hfind. by eexists.
  - intros Hnone. rewrite searchCycle_report.
    destruct (findRoute imported traversed) as [[rt|] tr'] eqn:Hfind; [|done].
    pose proof (findRoute_sound _ _ _ _ Hfind) as Hc.
    apply findRoute_within in Hfind; [|rewrite Hk; simpl; lia].
    rewrite Hk in Hfind. simpl in Hfind.
    apply closesIn_notTraversed_any in Hc. by rewrite Hnone in Hc.
Qed.
End Properties.

(** ** The guards of [checkSourceValue] *)

(** C1. When the component map is there and gives the linted file and the
    resolved target of the import different entries, [checkSourceValue]
    reports nothing and leaves [traversed] as it was: the search is not
    entered. *)
Theorem scc_filter_no_report options env filename sourceValue importer traversed
    imported (components : gmap string nat) :
  exportMapGet env sourceValue = Some imported →
  scc env = Some components →
  components !! filename ≠ components !! path imported →
  checkSourceValue options env filename sourceValue importer traversed
  = (None, traversed).
Proof.
  intros Hget Hscc Hdiff. unfold checkSourceValue, checkImported.
  repeat (case_match; try done).
  unfold hasDependencyCycle in *. rewrite Hscc in *.
  simplify_eq. by rewrite bool_decide_false in * by done.
Qed.

Lemma scc_filter_no_report_witness :
  checkSourceValue (Scenario.plain Infinity) Scenario.oneWayWorld "a" "b"
                   Scenario.valueImport ∅ = (None, ∅).
Proof.
  apply (scc_filter_no_report _ Scenario.oneWayWorld "a" "b" _ ∅
           (Scenario.moduleAt Scenario.oneWay "b")
           (list_to_map [("a", 0); ("b", 1); ("c", 1)])).
  - by vm_compute.
  - reflexivity.
  - by vm_compute.
Defined.

(** C10. An import declaration without specifiers passes the type-only test
    (every specifier of none is a type) and is never checked, whatever the
    configuration, the graph and the kind of the declaration. *)
Theorem bare_import_never_checked options env filename sourceValue kind traversed :
  isTypeImport (ImportDeclaration kind []) = true ∧
  checkSourceValue options env filename sourceValue (ImportDeclaration kind []) traversed
  = (None, traversed).
Proof.
  assert (Ht : isTypeImport (ImportDeclaration kind []) = true).
  { simpl. by repeat case_match. }
  split; [done|]. unfold checkSourceValue. rewrite Ht.
  by repeat case_match.
Qed.

Lemma toTraverse_dropTypeOnly options env ds :
  toTraverse options env (List.filter (λ d, negb (isOnlyImportingTypes d)) ds)
  = toTraverse options env ds.
Proof.
  unfold toTraverse. induction ds as [|d ds IH]; simpl; [done|].
  destruct (isOnlyImportingTypes d) eqn:Ht; simpl; rewrite ?Ht; simpl.
  - by rewrite andb_false_r.
  - rewrite !andb_true_r. destruct (negb _); simpl; by rewrite IH.
Qed.

Lemma scanImports_dropTypeOnly options env filename traversed rt es untraversed :
  scanImports options env filename traversed rt (dropTypeOnly es) untraversed
  = scanImports options env filename traversed rt es untraversed.
Proof.
  revert untraversed. induction es as [|[p e] es IH]; intros untraversed; [done|].
  simpl. rewrite !toTraverse_dropTypeOnly, !IH. done.
Qed.

(** C7. Type-only declarations never contribute an edge, whatever the
    options: an import declaration that is itself of kind [type], or whose
    specifiers all are, is skipped as a trigger; no declaration that imports
    only types is among the qualifying declarations of an edge; and the edge
    loop runs as if those declarations were not there. *)
Theorem type_only_never_an_edge options env filename :
  (∀ sourceValue kind specifiers traversed,
     kind = Some KindType ∨
       Forall (λ s, spec_importKind s = Some KindType) specifiers →
     checkSourceValue options env filename sourceValue
                      (ImportDeclaration kind specifiers) traversed
     = (None, traversed)) ∧
  (∀ ds d, d ∈ toTraverse options env ds → isOnlyImportingTypes d = false) ∧
  (∀ traversed rt es untraversed,
     scanImports options env filename traversed rt (dropTypeOnly es) untraversed
     = scanImports options env filename traversed rt es untraversed).
Proof.
  split_and!.
  - intros sourceValue kind specifiers traversed Htype.
    assert (Ht : isTypeImport (ImportDeclaration kind specifiers) = true).
    { destruct Htype as [->|Hall]; [done|]. simpl.
      assert (forallb isTypeSpecifier specifiers = true) as ->.
      { apply forallb_forall. intros sp Hin%list_elem_of_In.
        rewrite Forall_forall in Hall. unfold isTypeSpecifier. by rewrite (Hall _ Hin). }
      by repeat case_match. }
    unfold checkSourceValue. rewrite Ht. by repeat case_match.
  - intros ds d Hd%list_elem_of_In. apply filter_In in Hd as [_ Hd].
    apply andb_true_iff in Hd as [_ Hd]. by apply negb_true_iff in Hd.
  - apply scanImports_dropTypeOnly.
Qed.

Lemma type_only_never_an_edge_witness :
  checkSourceValue (Scenario.plain Infinity) (Scenario.world (Scenario.two 1 3)) "a" "b"
    (ImportDeclaration (Some KindValue) [mkSpecifier (Some KindType)]) ∅ = (None, ∅).
Proof.
  apply (proj1 (type_only_never_an_edge (Scenario.plain Infinity)
                  (Scenario.world (Scenario.two 1 3)) "a")).
  right. repeat constructor.
Defined.

(** C8. With [allowUnsafeDynamicCyclicDependency] on, an [import()]
    expression is skipped, but a call of [require] is not: it goes on to the
    resolution of its source and the cycle check like any other
    declaration. *)
Theorem require_still_checked options env filename sourceValue traversed :
  allowUnsafeDynamicCyclicDependency options = true →
  ignoreModule options env sourceValue = false →
  checkSourceValue options env filename sourceValue ImportExpression traversed
  = (None, traversed) ∧
  dynamicImportAllowed options (CallExpression (Identifier "require")) = false ∧
  checkSourceValue options env filename sourceValue
                   (CallExpression (Identifier "require")) traversed
  = checkImported options env filename sourceValue
                  (CallExpression (Identifier "require")) traversed.
Proof.
  intros Hallow Hign. unfold checkSourceValue, dynamicImportAllowed.
  rewrite Hallow, Hign. done.
Qed.

Lemma require_still_checked_witness :
  (checkSourceValue (mkOptions true false Infinity) (Scenario.world (Scenario.two 1 3))
     "a" "b" (CallExpression (Identifier "require")) ∅).1
  = Some (mkReport (CallExpression (Identifier "require")) "detected.").
Proof.
  rewrite (proj2 (proj2 (require_still_checked (mkOptions true false Infinity)
             (Scenario.world (Scenario.two 1 3)) "a" "b" ∅ eq_refl eq_refl))).
  by vm_compute.
Defined.

(** ** The scenarios of the rule *)

(** C5, as the specification words it: the check of a's import of b
    reports, but the route of the two-module cycle is not rendered as
    [via b:<line>]; 3 is the line of b's import of a. *)
Lemma two_cycle_not_via :
  (checkSourceValue (Scenario.plain Infinity) (Scenario.world (Scenario.two 1 3))
     "a" "b" Scenario.valueImport ∅).1
  = Some (mkReport Scenario.valueImport "detected.") ∧
  (checkSourceValue (Scenario.plain Infinity) (Scenario.world (Scenario.two 1 3))
     "a" "b" Scenario.valueImport ∅).1
  ≠ Some (mkReport Scenario.valueImport "via b:3").
Proof. split; by vm_compute. Qed.

(** C5. In the graph where a imports b and b imports a, the check of a's
    import of b reports at that declaration, wherever the two imports stand
    and whatever [maxDepth] is; the closing edge is the first one followed,
    so the route is empty and the message is
    [Dependency cycle detected.]. *)
Theorem two_cycle_detected la lb d :
  ∃ r, (checkSourceValue (Scenario.plain d) (Scenario.world (Scenario.two la lb))
          "a" "b" Scenario.valueImport ∅).1 = Some r ∧
       node r = Scenario.valueImport ∧
       message r = "Dependency cycle detected."%string.
Proof. eexists. split; [by vm_compute|]. done. Qed.

(** C4, as the specification words it: with [maxDepth = 2] the three-module
    cycle is reported, and with [maxDepth = 3] the reported route has one
    entry, not two. *)
Lemma three_cycle_depth_two_reported :
  (checkSourceValue (Scenario.plain (Finite 2)) (Scenario.world Scenario.three)
     "a" "b" Scenario.valueImport ∅).1 ≠ None ∧
  (∃ rt, (findRoute (Scenario.plain (Finite 3)) (Scenario.world Scenario.three) "a"
            (Scenario.moduleAt Scenario.three "b") ∅).1 = Some rt ∧
         length rt ≠ 2).
Proof.
  split; [by vm_compute|]. exists [mkSource "c" 4]. split; [by vm_compute|done].
Qed.

(** C4. In the graph a -> b -> c -> a, the check of a's import of b reports
    nothing with [maxDepth = 1]; with [maxDepth = 2] and with
    [maxDepth = 3] it reports the route of one entry [c:4], b's import of
    c. *)
Theorem three_cycle_depths :
  (checkSourceValue (Scenario.plain (Finite 1)) (Scenario.world Scenario.three)
     "a" "b" Scenario.valueImport ∅).1 = None ∧
  (findRoute (Scenario.plain (Finite 2)) (Scenario.world Scenario.three) "a"
     (Scenario.moduleAt Scenario.three "b") ∅).1 = Some [mkSource "c" 4] ∧
  (checkSourceValue (Scenario.plain (Finite 2)) (Scenario.world Scenario.three)
     "a" "b" Scenario.valueImport ∅).1
  = Some (mkReport Scenario.valueImport "via c:4") ∧
  (findRoute (Scenario.plain (Finite 3)) (Scenario.world Scenario.three) "a"
     (Scenario.moduleAt Scenario.three "b") ∅).1 = Some [mkSource "c" 4] ∧
  (checkSourceValue (Scenario.plain (Finite 3)) (Scenario.world Scenario.three)
     "a" "b" Scenario.valueImport ∅).1
  = Some (mkReport Scenario.valueImport "via c:4").
Proof. split_and!; by vm_compute. Qed.





Lemma shortest_untraversed_route_witness :
  ∃ rt,
    (findRoute (Scenario.plain Infinity) (Scenario.world Scenario.shared) "a"
       (Scenario.moduleAt Scenario.shared "c") {["b"]}).1 = Some rt ∧
    (searchCycle (Scenario.plain Infinity) (Scenario.world Scenario.shared) "a"
       Scenario.valueImport (Scenario.moduleAt Scenario.shared "c") {["b"]}).1
    = Some (mkReport Scenario.valueImport (reportData rt)) ∧
    closesIn (Scenario.plain Infinity) (Scenario.world Scenario.shared) "a"
      (notTraversed {["b"]}) (S (length rt)) (Scenario.moduleAt Scenario.shared "c") = true ∧
    (∀ h', closesIn (Scenario.plain Infinity) (Scenario.world Scenario.shared) "a"
             (live (Scenario.plain Infinity) (Scenario.world Scenario.shared) {["b"]})
             h' (Scenario.moduleAt Scenario.shared "c") = true →
           S (length rt) ≤ h') ∧
    (allowUnsafeDynamicCyclicDependency (Scenario.plain Infinity) = false →
     ∀ h', closesIn (Scenario.plain Infinity) (Scenario.world Scenario.shared) "a"
             (notTraversed {["b"]}) h' (Scenario.moduleAt Scenario.shared "c") = true →
           S (length rt) ≤ h').
Proof.
  apply (shortest_untraversed_route (Scenario.plain Infinity)
           (Scenario.world Scenario.shared) "a" Scenario.valueImport
           (Scenario.moduleAt Scenario.shared "c") {["b"]} 3).
  - by vm_compute.
  - by vm_compute.
  - by apply not_elem_of_singleton.
  - exact I.
  - by vm_compute.
Defined.

(** C2, as the specification words it: a imports b and then c.  The check
    of the first import leaves b traversed; for the second import the
    reported route has two entries, [e:2=>f:1], three hops, although the
    qualifying cycle c -> b -> a has two hops only. *)
Lemma later_import_longer_route :
  (checkSourceValue (Scenario.plain Infinity) (Scenario.world Scenario.shared)
     "a" "b" Scenario.valueImport ∅).2 = {["b"]} ∧
  (findRoute (Scenario.plain Infinity) (Scenario.world Scenario.shared) "a"
     (Scenario.moduleAt Scenario.shared "c") {["b"]}).1
  = Some [mkSource "e" 2; mkSource "f" 1] ∧
  (visitImports (Scenario.plain Infinity) (Scenario.world Scenario.shared) "a"
     [("b", Scenario.valueImport); ("c", Scenario.valueImport)] ∅).1
  = [mkReport Scenario.valueImport "detected.";
     mkReport Scenario.valueImport "via e:2=>f:1"] ∧
  closesIn (Scenario.plain Infinity) (Scenario.world Scenario.shared) "a"
    anyModule 2 (Scenario.moduleAt Scenario.shared "c") = true.
Proof. split_and!; by vm_compute. Qed.

Lemma depth_boundary_witness :
  (∃ r, (searchCycle (Scenario.plain (Finite 2)) (Scenario.world Scenario.three) "a"
           Scenario.valueImport (Scenario.moduleAt Scenario.three "b") ∅).1 = Some r) ∧
  (searchCycle (Scenario.plain (Finite 1)) (Scenario.world Scenario.three) "a"
     Scenario.valueImport (Scenario.moduleAt Scenario.three "b") ∅).1 = None.
Proof.
  split.
  - apply (depth_boundary (Scenario.plain (Finite 2)) (Scenario.world Scenario.three)
             "a" Scenario.valueImport (Scenario.moduleAt Scenario.three "b") ∅ 2).
    + reflexivity.
    + lia.
    + by vm_compute.
    + by vm_compute.
    + apply not_elem_of_empty.
    + by vm_compute.
  - apply (depth_boundary (Scenario.plain (Finite 1)) (Scenario.world Scenario.three)
             "a" Scenario.valueImport (Scenario.moduleAt Scenario.three "b") ∅ 1).
    + reflexivity.
    + lia.
    + by vm_compute.
    + by vm_compute.
    + apply not_elem_of_empty.
    + intros h Hh. destruct h as [|[|h]]; [by vm_compute|by vm_compute|lia].
Defined.

(** C3, as the specification words it: a imports b and then c, and the only
    cycle from c is c -> b -> a: one route entry, two hops from c, three
    edges in all.  The check of the first import leaves b traversed, and
    with [maxDepth] 1, 2 or 3 alike only the first import is reported. *)
Lemma later_import_not_reported :
  closesIn (Scenario.plain (Finite 2)) (Scenario.world Scenario.revisit) "a"
    anyModule 2 (Scenario.moduleAt Scenario.revisit "c") = true ∧
  closesIn (Scenario.plain (Finite 2)) (Scenario.world Scenario.revisit) "a"
    anyModule 1 (Scenario.moduleAt Scenario.revisit "c") = false ∧
  (visitImports (Scenario.plain (Finite 1)) (Scenario.world Scenario.revisit) "a"
     [("b", Scenario.valueImport); ("c", Scenario.valueImport)] ∅).1
  = [mkReport Scenario.valueImport "detected."] ∧
  (visitImports (Scenario.plain (Finite 2)) (Scenario.world Scenario.revisit) "a"
     [("b", Scenario.valueImport); ("c", Scenario.valueImport)] ∅).1
  = [mkReport Scenario.valueImport "detected."] ∧
  (visitImports (Scenario.plain (Finite 3)) (Scenario.world Scenario.revisit) "a"
     [("b", Scenario.valueImport); ("c", Scenario.valueImport)] ∅).1
  = [mkReport Scenario.valueImport "detected."].
Proof. split_and!; by vm_compute. Qed.

(** ** The life of [traversed] *)

Lemma checkSourceValue_mono options env filename sourceValue importer traversed :
  traversed ⊆ (checkSourceValue options env filename sourceValue importer traversed).2.
Proof.
  unfold checkSourceValue, checkImported. repeat (case_match; try done).
  rewrite searchCycle_traversed. apply findRoute_mono.
Qed.

Lemma visitImports_mono options env filename decls traversed :
  traversed ⊆ (visitImports options env filename decls traversed).2.
Proof.
  revert traversed. induction decls as [|[sourceValue importer] decls IH];
    intros traversed; simpl; [done|].
  pose proof (checkSourceValue_mono options env filename sourceValue importer traversed)
    as Hstep.
  destruct (checkSourceValue _ _ _ _ _ _) as [r traversed1].
  pose proof (IH traversed1) as Hrest.
  destruct (visitImports _ _ _ _ _) as [rs traversed2]. simpl in *. set_solver.
Qed.

Lemma lintFile_clears options env filename decls traversed :
  filename ≠ "<text>"%string →
  (lintFile options env filename decls traversed).2 = ∅.
Proof.
  intros Hne. unfold lintFile. rewrite bool_decide_false by done.
  by destruct (visitImports _ _ _ _ _).
Qed.

Lemma lintFiles_empty options files : (lintFiles options files ∅).2 = ∅.
Proof.
  induction files as [|f files IH]; [done|]. simpl.
  destruct (lintFile _ _ _ _ _) as [rs traversed1] eqn:Hfile.
  assert (traversed1 = ∅) as ->.
  { destruct (decide (file_name f = "<text>"%string)) as [Heq|Hne].
    - unfold lintFile in Hfile. rewrite bool_decide_true in Hfile by done.
      by injection Hfile as _ <-.
    - apply (lintFile_clears options (file_env f) _ (file_imports f) ∅) in Hne.
      by rewrite Hfile in Hne. }
  by destruct (lintFiles options files ∅).
Qed.

Lemma lintFiles_app options files1 files2 traversed :
  lintFiles options (files1 ++ files2) traversed
  = let '(rs1, traversed1) := lintFiles options files1 traversed in
    let '(rs2, traversed2) := lintFiles options files2 traversed1 in
    (rs1 ++ rs2, traversed2).
Proof.
  revert traversed. induction files1 as [|f files1 IH]; intros traversed; simpl.
  { by destruct (lintFiles options files2 traversed). }
  destruct (lintFile _ _ _ _ _) as [rs traversed1]. rewrite IH.
  destruct (lintFiles options files1 traversed1) as [rs1 traversed2].
  by destruct (lintFiles options files2 traversed2).
Qed.

(** ** Further properties of the rule *)

(** *** The search only reads the cache and the classifier *)

Lemma toTraverse_env options env env' ds :
  (∀ n, ignoreModule options env n = ignoreModule options env' n) →
  toTraverse options env ds = toTraverse options env' ds.
Proof.
  intros Hign. unfold toTraverse. apply List.filter_ext. intros d. by rewrite Hign.
Qed.

Lemma scanImports_env options env env' filename traversed rt es untraversed :
  (∀ n, ignoreModule options env n = ignoreModule options env' n) →
  scanImports options env filename traversed rt es untraversed
  = scanImports options env' filename traversed rt es untraversed.
Proof.
  intros Hign. revert untraversed.
  induction es as [|[p e] es IH]; intros untraversed; [done|]. simpl.
  rewrite (toTraverse_env options env env' _ Hign). by rewrite !IH.
Qed.

Lemma bfs_env options env env' filename fuel traversed untraversed :
  modules env = modules env' →
  (∀ n, ignoreModule options env n = ignoreModule options env' n) →
  bfs options env filename fuel traversed untraversed
  = bfs options env' filename fuel traversed untraversed.
Proof.
  intros Hmod Hign. revert traversed untraversed.
  induction fuel as [|fuel IH]; intros traversed untraversed; [done|]. simpl.
  destruct untraversed as [|next rest]; [done|].
  unfold detectCycle.
  assert (force env (mget next) = force env' (mget next)) as ->.
  { unfold force. by rewrite Hmod. }
  destruct (force env' (mget next)) as [m|]; [|apply IH].
  case_bool_decide; [apply IH|].
  rewrite (scanImports_env options env env' filename _ _ _ _ Hign).
  destruct (scanImports _ _ _ _ _ _ _) as [[] q]; [done|apply IH].
Qed.

Lemma searchCycle_env options env env' filename importer imported traversed :
  modules env = modules env' →
  (∀ n, ignoreModule options env n = ignoreModule options env' n) →
  searchCycle options env filename importer imported traversed
  = searchCycle options env' filename importer imported traversed.
Proof.
  intros Hmod Hign. unfold searchCycle, findRoute, enoughFuel.
  by rewrite Hmod, (bfs_env options env env' filename _ _ _ Hmod Hign).
Qed.

(** X1. No false positive: a report of [checkSourceValue] is located at the
    checked declaration, which passed every guard, and its route comes from
    a chain of qualifying edges that leads from the resolved target back to
    the linted file through modules not traversed before. *)
Theorem report_has_cycle options env filename sourceValue importer traversed r
    traversed' :
  checkSourceValue options env filename sourceValue importer traversed
  = (Some r, traversed') →
  ∃ imported rt,
    exportMapGet env sourceValue = Some imported ∧ path imported ≠ filename ∧
    ignoreModule options env sourceValue = false ∧
    dynamicImportAllowed options importer = false ∧
    isTypeImport importer = false ∧
    hasDependencyCycle env filename imported = true ∧
    r = mkReport importer (reportData rt) ∧
    closesIn options env filename (notTraversed traversed) (S (length rt)) imported
    = true.
Proof.
  unfold checkSourceValue, checkImported.
  destruct (ignoreModule options env sourceValue) eqn:Hign; [done|].
  destruct (dynamicImportAllowed options importer) eqn:Hdyn; [done|].
  destruct (isTypeImport importer) eqn:Htype; [done|].
  destruct (exportMapGet env sourceValue) as [imported|] eqn:Hget; [|done].
  case_bool_decide as Hself; [done|].
  destruct (hasDependencyCycle env filename imported) eqn:Hscc; [|done]. simpl.
  unfold searchCycle.
  destruct (findRoute options env filename imported traversed) as [[rt|] tr] eqn:Hfind;
    [|done].
  intros [= <- <-]. exists imported, rt. split_and!; try done.
  by eapply findRoute_sound.
Qed.

Lemma report_has_cycle_witness :
  ∃ imported rt,
    exportMapGet (Scenario.world Scenario.three) "b" = Some imported ∧
    path imported ≠ "a"%string ∧
    ignoreModule (Scenario.plain Infinity) (Scenario.world Scenario.three) "b" = false ∧
    dynamicImportAllowed (Scenario.plain Infinity) Scenario.valueImport = false ∧
    isTypeImport Scenario.valueImport = false ∧
    hasDependencyCycle (Scenario.world Scenario.three) "a" imported = true ∧
    mkReport Scenario.valueImport "via c:4" = mkReport Scenario.valueImport (reportData rt) ∧
    closesIn (Scenario.plain Infinity) (Scenario.world Scenario.three) "a"
      (notTraversed ∅) (S (length rt)) imported = true.
Proof.
  apply (report_has_cycle (Scenario.plain Infinity) (Scenario.world Scenario.three)
           "a" "b" Scenario.valueImport ∅ (mkReport Scenario.valueImport "via c:4")
           {["c"; "b"]}).
  by vm_compute.
Defined.

(** X18. An import that does not resolve, or that resolves to the linted
    file itself, is never reported and leaves [traversed] as it was. *)
Theorem unresolved_or_self_import options env filename sourceValue importer traversed :
  (exportMapGet env sourceValue = None ∨
   ∃ imported, exportMapGet env sourceValue = Some imported ∧ path imported = filename) →
  checkSourceValue options env filename sourceValue importer traversed
  = (None, traversed).
Proof.
  intros Hres. unfold checkSourceValue, checkImported.
  destruct (ignoreModule options env sourceValue); [done|].
  destruct (dynamicImportAllowed options importer); [done|].
  destruct (isTypeImport importer); [done|].
  destruct Hres as [->|(imported & -> & Hself)]; [done|].
  by rewrite bool_decide_true.
Qed.

Lemma unresolved_or_self_import_witness :
  checkSourceValue (Scenario.plain Infinity) (Scenario.world (Scenario.two 1 3)) "a" "a"
                   Scenario.valueImport ∅ = (None, ∅) ∧
  checkSourceValue (Scenario.plain Infinity) (Scenario.world (Scenario.two 1 3)) "a" "z"
                   Scenario.valueImport ∅ = (None, ∅).
Proof.
  split.
  - apply unresolved_or_self_import. right.
    exists (Scenario.moduleAt (Scenario.two 1 3) "a"). split; by vm_compute.
  - apply unresolved_or_self_import. left. by vm_compute.
Defined.

Lemma toTraverse_dropIgnored options env ds :
  toTraverse options env
    (List.filter (λ d, negb (ignoreModule options env (value (source d)))) ds)
  = toTraverse options env ds.
Proof.
  unfold toTraverse. induction ds as [|d ds IH]; simpl; [done|].
  destruct (ignoreModule options env (value (source d))) eqn:Hign; simpl;
    rewrite ?Hign; simpl; [done|].
  destruct (negb (isOnlyImportingTypes d)); by rewrite IH.
Qed.

(** X2. External exclusion.  With [ignoreExternal] on, a declaration whose
    source is classified external is not checked; no such declaration is
    among the qualifying declarations of an edge; and the edge loop runs as
    if the ignored declarations were not there. *)
Theorem external_never_an_edge options env filename :
  (∀ sourceValue importer traversed,
     ignoreExternal options = true → isExternalModule env sourceValue = true →
     checkSourceValue options env filename sourceValue importer traversed
     = (None, traversed)) ∧
  (∀ ds d, d ∈ toTraverse options env ds →
     ignoreExternal options = true → isExternalModule env (value (source d)) = false) ∧
  (∀ traversed rt es untraversed,
     scanImports options env filename traversed rt (dropIgnored options env es) untraversed
     = scanImports options env filename traversed rt es untraversed).
Proof.
  split_and!.
  - intros sourceValue importer traversed Hon Hext.
    unfold checkSourceValue, ignoreModule. by rewrite Hon, Hext.
  - intros ds d Hd%list_elem_of_In Hon. apply filter_In in Hd as [_ Hd].
    apply andb_true_iff in Hd as [Hd _]. apply negb_true_iff in Hd.
    unfold ignoreModule in Hd. by rewrite Hon in Hd.
  - intros traversed rt es. induction es as [|[p e] es IH]; intros untraversed; [done|].
    simpl. by rewrite !toTraverse_dropIgnored, !IH.
Qed.

Lemma external_never_an_edge_witness :
  checkSourceValue (mkOptions false true Infinity) Scenario.externalWorld "a" "b"
                   Scenario.valueImport ∅ = (None, ∅).
Proof.
  apply (proj1 (external_never_an_edge (mkOptions false true Infinity)
                  Scenario.externalWorld "a")); reflexivity.
Defined.

(** X3. With [ignoreExternal] off the external classifier is never
    consulted: the check gives the same report and the same [traversed]
    whatever the classifier answers. *)
Theorem classifier_unused options env filename classify sourceValue importer traversed :
  ignoreExternal options = false →
  checkSourceValue options (withClassifier classify env) filename sourceValue importer
                   traversed
  = checkSourceValue options env filename sourceValue importer traversed.
Proof.
  intros Hoff.
  assert (Hign : ∀ n, ignoreModule options (withClassifier classify env) n
                      = ignoreModule options env n).
  { intros n. unfold ignoreModule. by rewrite Hoff. }
  unfold checkSourceValue, checkImported. rewrite Hign.
  destruct (ignoreModule options env sourceValue); [done|].
  destruct (dynamicImportAllowed options importer); [done|].
  destruct (isTypeImport importer); [done|].
  change (exportMapGet (withClassifier classify env)) with (exportMapGet env).
  destruct (exportMapGet env sourceValue) as [imported|]; [|done].
  case_bool_decide; [done|].
  change (hasDependencyCycle (withClassifier classify env) filename imported)
    with (hasDependencyCycle env filename imported).
  destruct (hasDependencyCycle env filename imported); [|done]. simpl.
  by apply searchCycle_env.
Qed.

Lemma classifier_unused_witness :
  checkSourceValue (Scenario.plain Infinity)
    (withClassifier (λ _, true) (Scenario.world Scenario.three)) "a" "b"
    Scenario.valueImport ∅
  = checkSourceValue (Scenario.plain Infinity) (Scenario.world Scenario.three) "a" "b"
      Scenario.valueImport ∅.
Proof. by apply classifier_unused. Defined.

(** X4. For one check, taken from a given [traversed]: when the component
    map gives the linted file and the resolved target one entry whenever a
    chain of qualifying edges leads from the target back to the file, the
    check reports exactly what it reports without the map.  The map only
    saves the search, and with it the marking: the check leaves in
    [traversed] no more than the check without the map does.  (A later
    check of the file starts from that smaller set and may then come out
    differently, see [scc_filter_changes_later_check].) *)
Theorem scc_filter_keeps_report options env filename sourceValue importer traversed :
  (∀ components imported h,
     scc env = Some components → exportMapGet env sourceValue = Some imported →
     closesIn options env filename anyModule h imported = true →
     components !! filename = components !! path imported) →
  (checkSourceValue options env filename sourceValue importer traversed).1
  = (checkSourceValue options (withoutScc env) filename sourceValue importer traversed).1 ∧
  (checkSourceValue options env filename sourceValue importer traversed).2
  ⊆ (checkSourceValue options (withoutScc env) filename sourceValue importer traversed).2.
Proof.
  intros Hsound.
  pose proof (checkSourceValue_mono options (withoutScc env) filename sourceValue
                importer traversed) as Hmono.
  revert Hmono. unfold checkSourceValue, checkImported.
  change (ignoreModule options (withoutScc env) sourceValue)
    with (ignoreModule options env sourceValue).
  destruct (ignoreModule options env sourceValue); [done|].
  destruct (dynamicImportAllowed options importer); [done|].
  destruct (isTypeImport importer); [done|].
  change (exportMapGet (withoutScc env)) with (exportMapGet env).
  destruct (exportMapGet env sourceValue) as [imported|] eqn:Hget; [|done].
  case_bool_decide; [done|].
  change (hasDependencyCycle (withoutScc env) filename imported) with true.
  rewrite <-(searchCycle_env options env (withoutScc env)) by done.
  destruct (hasDependencyCycle env filename imported) eqn:Hscc; [done|]. simpl.
  intros Hmono. split; [|done].
  unfold hasDependencyCycle in Hscc.
  destruct (scc env) as [components|] eqn:Hmap; [|done].
  apply bool_decide_eq_false in Hscc.
  unfold searchCycle.
  destruct (findRoute options env filename imported traversed) as [[rt|] tr] eqn:Hfind;
    [|done].
  exfalso. apply Hscc. apply (Hsound components imported (S (length rt))); try done.
  eapply closesIn_weaken; [|by eapply findRoute_sound]. done.
Qed.

Lemma scc_filter_keeps_report_witness :
  (checkSourceValue (Scenario.plain Infinity) Scenario.twoWorld "a" "b"
     Scenario.valueImport ∅).1
  = (checkSourceValue (Scenario.plain Infinity) (withoutScc Scenario.twoWorld) "a" "b"
       Scenario.valueImport ∅).1 ∧
  (checkSourceValue (Scenario.plain Infinity) Scenario.twoWorld "a" "b"
     Scenario.valueImport ∅).2
  ⊆ (checkSourceValue (Scenario.plain Infinity) (withoutScc Scenario.twoWorld) "a" "b"
       Scenario.valueImport ∅).2.
Proof.
  apply scc_filter_keeps_report. intros components imported h Hc Hi _.
  injection Hc as <-. injection Hi as <-. by vm_compute.
Defined.

(** Over a whole file the map can change the reports: with the dynamic
    escape on, a imports c and then b, where b imports c dynamically and a
    statically.  With the map the import of c is filtered and leaves c
    unmarked, so the dynamic edge of b ends its loop and nothing is
    reported; without the map c gets marked, the dynamic edge is skipped
    and the import of b is reported. *)
Lemma scc_filter_changes_later_check :
  (visitImports (mkOptions true false Infinity) Scenario.visited_dynamicWorld "a"
     [("c", Scenario.valueImport); ("b", Scenario.valueImport)] ∅).1 = [] ∧
  (visitImports (mkOptions true false Infinity)
     (withoutScc Scenario.visited_dynamicWorld) "a"
     [("c", Scenario.valueImport); ("b", Scenario.valueImport)] ∅).1
  = [mkReport Scenario.valueImport "detected."].
Proof. split; by vm_compute. Qed.

(** X5. The [while] loop comes to an end on every cache, cyclic or not, and
    with unbounded [maxDepth] too: any fuel from [enoughFuel] on yields the
    result of [findRoute]. *)
Theorem search_always_ends options env filename imported traversed fuel :
  enoughFuel env imported ≤ fuel →
  bfs options env filename fuel traversed [mkTraverser (Ready imported) []]
  = Some (findRoute options env filename imported traversed).
Proof.
  intros Hle. eapply bfs_fuel_mono; [apply findRoute_bfs|done].
Qed.

Lemma search_always_ends_witness :
  bfs (Scenario.plain Infinity) (Scenario.world Scenario.three) "a" 100 ∅
      [mkTraverser (Ready (Scenario.moduleAt Scenario.three "b")) []]
  = Some (findRoute (Scenario.plain Infinity) (Scenario.world Scenario.three) "a"
            (Scenario.moduleAt Scenario.three "b") ∅).
Proof. apply search_always_ends. vm_compute. lia. Defined.

(** *** What the search does to [traversed] *)

Lemma findRoute_traversed_target options env filename imported traversed :
  path imported ∈ traversed →
  findRoute options env filename imported traversed = (None, traversed).
Proof.
  intros Hin. unfold findRoute, enoughFuel. simpl. unfold detectCycle. simpl.
  by rewrite bool_decide_true.
Qed.

Lemma bfs_marks_head options env filename fuel traversed next rest m r traversed' :
  force env (mget next) = Some m →
  bfs options env filename fuel traversed (next :: rest) = Some (r, traversed') →
  path m ∈ traversed'.
Proof.
  intros Hm. destruct fuel as [|fuel]; [done|]. simpl.
  destruct (detectCycle_cases options env filename traversed rest next)
    as [[-> Hseen]|(m' & Hm' & _ & ->)].
  - intros Hbfs%bfs_traversed_mono. apply Hbfs. by apply Hseen.
  - assert (m' = m) as -> by congruence.
    assert (path m ∈ {[path m]} ∪ traversed) as Hadded.
    { apply elem_of_union_l. by apply elem_of_singleton. }
    destruct (scanImports _ _ _ _ _ _ _).1.
    + by intros [= _ <-].
    + intros Hbfs%bfs_traversed_mono. by apply Hbfs.
Qed.

Lemma bfs_traversed_known options env filename imported fuel traversed untraversed r
    traversed' p :
  Forall (λ t, ∀ m, force env (mget t) = Some m → knownModule env imported m)
         untraversed →
  bfs options env filename fuel traversed untraversed = Some (r, traversed') →
  p ∈ traversed' →
  p ∈ traversed ∨ ∃ m, knownModule env imported m ∧ path m = p.
Proof.
  revert traversed untraversed.
  induction fuel as [|fuel IH]; intros traversed untraversed Hknown Hbfs Hp.
  { discriminate. }
  simpl in Hbfs. destruct untraversed as [|next rest].
  { injection Hbfs as _ <-. by left. }
  apply Forall_cons in Hknown as [Hnext Hrest].
  destruct (detectCycle_cases options env filename traversed rest next)
    as [[Hd _]|(m & Hm & _ & Hd)]; rewrite Hd in Hbfs.
  { by eapply IH. }
  assert (Hstep : p ∈ {[path m]} ∪ traversed →
                  p ∈ traversed ∨ ∃ m0, knownModule env imported m0 ∧ path m0 = p).
  { intros [->%elem_of_singleton|?]%elem_of_union; [|by left].
    right. exists m. split; [by apply Hnext|done]. }
  destruct (scanImports _ _ _ _ _ _ _).1.
  - injection Hbfs as _ <-. by apply Hstep.
  - assert (Hpushed : Forall
      (λ t, ∀ m0, force env (mget t) = Some m0 → knownModule env imported m0)
      (rest ++ pushed options env filename ({[path m]} ∪ traversed) (route next)
                      (imports m))).
    { apply Forall_app. split; [done|]. apply Forall_forall.
      intros t (q & e & d & _ & _ & -> & _)%pushed_inv m' Hm'.
      right. by exists (getter e). }
    destruct (IH _ _ Hpushed Hbfs Hp) as [Hin|Hin]; [by apply Hstep|by right].
Qed.

(** X6. An import whose target is already traversed is not searched: it is
    never reported and leaves [traversed] as it was. *)
Theorem traversed_target_silent options env filename importer imported traversed :
  path imported ∈ traversed →
  searchCycle options env filename importer imported traversed = (None, traversed).
Proof.
  intros Hin. unfold searchCycle. by rewrite findRoute_traversed_target.
Qed.

Lemma traversed_target_silent_witness :
  searchCycle (Scenario.plain Infinity) (Scenario.world (Scenario.two 1 3)) "a"
    Scenario.valueImport (Scenario.moduleAt (Scenario.two 1 3) "b") {["b"]}
  = (None, {["b"]}).
Proof. apply traversed_target_silent. by apply elem_of_singleton. Defined.

(** X8. A check that reaches the search marks the target of the import, and
    adds to [traversed] nothing but paths of the target and of cached
    modules. *)
Theorem search_marks_modules options env filename imported traversed :
  path imported ∈ (findRoute options env filename imported traversed).2 ∧
  ∀ p, p ∈ (findRoute options env filename imported traversed).2 →
       p ∈ traversed ∨ ∃ m, knownModule env imported m ∧ path m = p.
Proof.
  pose proof (findRoute_bfs options env filename imported traversed) as Hbfs.
  destruct (findRoute options env filename imported traversed) as [r traversed'].
  split.
  - eapply (bfs_marks_head options env filename _ traversed
              (mkTraverser (Ready imported) []) [] imported); [done|exact Hbfs].
  - intros p Hp. eapply bfs_traversed_known; [|exact Hbfs|exact Hp].
    apply Forall_singleton. intros m [= <-]. by left.
Qed.

(** X7. Checking the same declaration again changes nothing: the second
    check reports nothing and leaves [traversed] as the first one left it,
    so a module imported twice by a file is reported once at most. *)
Theorem second_check_silent options env filename sourceValue importer traversed :
  checkSourceValue options env filename sourceValue importer
    (checkSourceValue options env filename sourceValue importer traversed).2
  = (None, (checkSourceValue options env filename sourceValue importer traversed).2).
Proof.
  unfold checkSourceValue, checkImported.
  destruct (ignoreModule options env sourceValue); [done|].
  destruct (dynamicImportAllowed options importer); [done|].
  destruct (isTypeImport importer); [done|].
  destruct (exportMapGet env sourceValue) as [imported|]; [|done].
  case_bool_decide; [done|].
  destruct (hasDependencyCycle env filename imported); [|done]. simpl.
  unfold searchCycle at 1. rewrite findRoute_traversed_target; [done|].
  rewrite searchCycle_traversed.
  pose proof (findRoute_bfs options env filename imported traversed) as Hbfs.
  destruct (findRoute options env filename imported traversed) as [r traversed'].
  eapply (bfs_marks_head options env filename _ traversed
            (mkTraverser (Ready imported) []) [] imported); [done|exact Hbfs].
Qed.

(** *** The linted file is never traversed *)

Lemma bfs_file_untraversed options env filename imported fuel traversed untraversed r
    traversed' :
  wellFormed env imported = true →
  filename ∉ traversed →
  Forall (λ t, ∀ m, force env (mget t) = Some m → cached env m ∧ path m ≠ filename)
         untraversed →
  bfs options env filename fuel traversed untraversed = Some (r, traversed') →
  filename ∉ traversed'.
Proof.
  intros Hwf. revert traversed untraversed.
  induction fuel as [|fuel IH]; intros traversed untraversed Hfile Hnodes Hbfs.
  { discriminate. }
  simpl in Hbfs. destruct untraversed as [|next rest].
  { by injection Hbfs as _ <-. }
  apply Forall_cons in Hnodes as [Hnext Hrest].
  destruct (detectCycle_cases options env filename traversed rest next)
    as [[Hd _]|(m & Hm & _ & Hd)]; rewrite Hd in Hbfs.
  { by eapply IH. }
  destruct (Hnext m Hm) as [Hcached Hne].
  assert (Hfile' : filename ∉ {[path m]} ∪ traversed).
  { apply not_elem_of_added; [done|congruence]. }
  destruct (scanImports _ _ _ _ _ _ _).1.
  - by injection Hbfs as _ <-.
  - eapply IH; [exact Hfile'| |exact Hbfs].
    apply Forall_app. split; [done|]. apply Forall_forall.
    intros t (p & e & d & Hpe & _ & -> & _ & _ & Hp)%pushed_inv m' Hm'.
    cbn [mget force] in Hm'.
    rewrite (cached_getter env imported Hwf _ _ _ Hcached Hpe) in Hm'.
    destruct (wf_entry env imported Hwf _ _ Hm') as [Hpath _].
    split; [by eapply cached_target|congruence].
Qed.

(** X9. On a cache that keeps its invariants, the linted file itself never
    gets traversed by the checks of its declarations. *)
Theorem file_never_traversed options env filename decls traversed :
  (∀ sourceValue imported,
     exportMapGet env sourceValue = Some imported → wellFormed env imported = true) →
  filename ∉ traversed →
  filename ∉ (visitImports options env filename decls traversed).2.
Proof.
  intros Hwf. revert traversed.
  induction decls as [|[sourceValue importer] decls IH]; intros traversed Hfile; [done|].
  simpl.
  assert (Hstep : filename ∉
            (checkSourceValue options env filename sourceValue importer traversed).2).
  { unfold checkSourceValue, checkImported.
    destruct (ignoreModule options env sourceValue); [done|].
    destruct (dynamicImportAllowed options importer); [done|].
    destruct (isTypeImport importer); [done|].
    destruct (exportMapGet env sourceValue) as [imported|] eqn:Hget; [|done].
    case_bool_decide as Hself; [done|].
    destruct (hasDependencyCycle env filename imported); [|done]. simpl.
    rewrite searchCycle_traversed.
    pose proof (findRoute_bfs options env filename imported traversed) as Hbfs.
    destruct (findRoute options env filename imported traversed) as [r traversed'].
    eapply (bfs_file_untraversed options env filename imported);
      [by eapply Hwf|exact Hfile| |exact Hbfs].
    apply Forall_singleton. intros m [= <-]. split; [|done].
    apply wf_imported. by eapply Hwf. }
  destruct (checkSourceValue _ _ _ _ _ _) as [r traversed1].
  pose proof (IH traversed1 Hstep) as Hrest.
  by destruct (visitImports _ _ _ _ _) as [rs traversed2].
Qed.

Lemma file_never_traversed_witness :
  "a"%string ∉ (visitImports (Scenario.plain Infinity) (Scenario.world Scenario.shared) "a"
                  [("b", Scenario.valueImport); ("c", Scenario.valueImport)] ∅).2.
Proof.
  apply file_never_traversed; [|apply not_elem_of_empty].
  intros sourceValue imported Hget. apply andb_true_iff. split; [by vm_compute|].
  apply bool_decide_eq_true. simpl in Hget.
  apply elem_of_list_to_map_2 in Hget. simpl in Hget.
  repeat (apply elem_of_cons in Hget as [[= -> ->]|Hget]; [by vm_compute|]).
  by apply elem_of_nil in Hget.
Defined.

(** *** The reported route *)

Lemma bfs_route_declared options env filename imported fuel traversed untraversed rt
    traversed' :
  Forall (λ t, (∀ m, force env (mget t) = Some m → knownModule env imported m) ∧
               Forall (declaredSource options env imported) (route t))
         untraversed →
  bfs options env filename fuel traversed untraversed = Some (Some rt, traversed') →
  Forall (declaredSource options env imported) rt.
Proof.
  revert traversed untraversed.
  induction fuel as [|fuel IH]; intros traversed untraversed Hall Hbfs.
  { discriminate. }
  simpl in Hbfs. destruct untraversed as [|next rest]; [discriminate|].
  apply Forall_cons in Hall as [[Hnext Hroute] Hrest].
  destruct (detectCycle_cases options env filename traversed rest next)
    as [[Hd _]|(m & Hm & _ & Hd)]; rewrite Hd in Hbfs.
  { by eapply IH. }
  destruct (scanImports _ _ _ _ _ _ _).1.
  - by injection Hbfs as <- _.
  - eapply IH; [|exact Hbfs].
    apply Forall_app. split; [done|]. apply Forall_forall.
    intros t (p & e & d & Hpe & Hd' & -> & _)%pushed_inv. split.
    + intros m' Hm'. right. by exists (getter e).
    + cbn [route]. apply Forall_app. split; [done|].
      apply Forall_singleton. exists m, p, e, d. split_and!; try done.
      by apply Hnext.
Qed.

(** X11. Every entry of a reported route is the source of a declaration
    that passed the external and type-only filters, in the target of the
    import or in a cached module: a type-only or ignored declaration is
    never cited. *)
Theorem route_entries_declared options env filename imported traversed rt traversed' :
  findRoute options env filename imported traversed = (Some rt, traversed') →
  Forall (declaredSource options env imported) rt.
Proof.
  intros Hfind. pose proof (findRoute_bfs options env filename imported traversed) as Hbfs.
  rewrite Hfind in Hbfs. eapply bfs_route_declared; [|exact Hbfs].
  apply Forall_singleton. split; [|done]. intros m [= <-]. by left.
Qed.

Lemma route_entries_declared_witness :
  Forall (declaredSource (Scenario.plain Infinity) (Scenario.world Scenario.shared)
            (Scenario.moduleAt Scenario.shared "c"))
         [mkSource "e" 2; mkSource "f" 1].
Proof.
  apply (route_entries_declared (Scenario.plain Infinity)
           (Scenario.world Scenario.shared) "a" (Scenario.moduleAt Scenario.shared "c")
           {["b"]} _ {["f"; "e"; "c"; "b"]}).
  by vm_compute.
Defined.

(** X12. With [maxDepth] a positive integer [k], a reported route has fewer
    than [k] entries. *)
Theorem route_shorter_than_maxDepth options env filename imported traversed rt
    traversed' k :
  maxDepth options = Finite k → 1 ≤ k →
  findRoute options env filename imported traversed = (Some rt, traversed') →
  length rt < k.
Proof.
  intros Hk Hpos Hfind.
  apply findRoute_within in Hfind; rewrite Hk in *; simpl in *; lia.
Qed.

Lemma route_shorter_than_maxDepth_witness : length [mkSource "c" 4] < 2.
Proof.
  apply (route_shorter_than_maxDepth (Scenario.plain (Finite 2))
           (Scenario.world Scenario.three) "a" (Scenario.moduleAt Scenario.three "b")
           ∅ _ {["c"; "b"]} 2); [reflexivity|lia|by vm_compute].
Defined.

Lemma scanImports_closing options env filename traversed rt es :
  allowUnsafeDynamicCyclicDependency options &&
    existsb (λ pe, existsb dynamic (toTraverse options env (declarations pe.2))) es
  = false →
  filename ∉ traversed →
  closingEdge options env filename (mkExportMap filename es) = true →
  (scanImports options env filename traversed rt es []).1 = true.
Proof.
  intros Hopen Hfile Hclose.
  destruct (scanImports options env filename traversed rt es []).1 eqn:Hscan; [done|].
  apply closingEdge_spec in Hclose as (e & Hin & Hq). simpl in Hin.
  by destruct (scanImports_false options env filename traversed rt es Hopen Hscan
                 filename e Hin Hfile Hq) as [? _].
Qed.

(** X13. A direct cycle is always found at once: when the target of the
    import is not traversed, is not exempt by the dynamic escape and has a
    qualifying edge back to the linted file, the check reports
    [detected.], whatever [maxDepth] is, and marks the target only. *)
Theorem direct_cycle_detected options env filename importer imported traversed :
  filename ∉ traversed → path imported ≠ filename → path imported ∉ traversed →
  notExempt options env imported = true →
  closingEdge options env filename imported = true →
  searchCycle options env filename importer imported traversed
  = (Some (mkReport importer "detected."), {[path imported]} ∪ traversed).
Proof.
  intros Hfile Hne Hfresh Hopen Hclose.
  unfold searchCycle, findRoute, enoughFuel. simpl. unfold detectCycle. simpl.
  rewrite bool_decide_false by done.
  rewrite scanImports_app.
  rewrite scanImports_closing; [done| | |].
  - unfold notExempt, exempt in Hopen. by apply negb_true_iff in Hopen.
  - apply not_elem_of_added; [done|congruence].
  - done.
Qed.

Lemma direct_cycle_detected_witness :
  searchCycle (Scenario.plain (Finite 1)) (Scenario.world (Scenario.two 1 3)) "a"
    Scenario.valueImport (Scenario.moduleAt (Scenario.two 1 3) "b") ∅
  = (Some (mkReport Scenario.valueImport "detected."), {["b"]} ∪ ∅).
Proof.
  apply (direct_cycle_detected (Scenario.plain (Finite 1))
           (Scenario.world (Scenario.two 1 3)) "a" Scenario.valueImport
           (Scenario.moduleAt (Scenario.two 1 3) "b") ∅).
  - apply not_elem_of_empty.
  - by vm_compute.
  - apply not_elem_of_empty.
  - by vm_compute.
  - by vm_compute.
Defined.

Lemma reportData_detected rt : reportData rt = "detected."%string → rt = [].
Proof. destruct rt as [|s rt]; [done|]. simpl. discriminate. Qed.

(** X14. The message [Dependency cycle detected.] is only given for a
    direct cycle: the target of the import, not traversed before, has
    itself a qualifying edge back to the linted file. *)
Theorem detected_means_direct options env filename importer imported traversed r
    traversed' :
  searchCycle options env filename importer imported traversed = (Some r, traversed') →
  message r = "Dependency cycle detected."%string →
  closingEdge options env filename imported = true ∧ path imported ∉ traversed.
Proof.
  unfold searchCycle, message.
  destruct (findRoute options env filename imported traversed) as [[rt|] tr] eqn:Hfind;
    [|done].
  intros [= <- <-]. simpl. intros [= Hdata].
  apply reportData_detected in Hdata as ->.
  apply findRoute_sound in Hfind. simpl in Hfind.
  apply andb_true_iff in Hfind as [Hfresh Hedge]. split.
  - apply orb_true_iff in Hedge as [Hedge|Hedge]; [done|].
    apply existsb_exists in Hedge as ([p e] & _ & [_ Hnone]%andb_true_iff).
    simpl in Hnone. by destruct (modules env !! getter e).
  - unfold notTraversed in Hfresh. by apply bool_decide_eq_true in Hfresh.
Qed.

Lemma detected_means_direct_witness :
  closingEdge (Scenario.plain Infinity) (Scenario.world (Scenario.two 1 3)) "a"
    (Scenario.moduleAt (Scenario.two 1 3) "b") = true ∧
  path (Scenario.moduleAt (Scenario.two 1 3) "b") ∉ (∅ : gset string).
Proof.
  apply (detected_means_direct (Scenario.plain Infinity)
           (Scenario.world (Scenario.two 1 3)) "a" Scenario.valueImport
           (Scenario.moduleAt (Scenario.two 1 3) "b") ∅
           (mkReport Scenario.valueImport "detected.") {["b"]}); by vm_compute.
Defined.

(** X17. With the dynamic escape on, when the first edge of the target that
    leads to a path not traversed has a dynamic qualifying declaration,
    the target is marked and nothing is reported, whatever edges follow, a
    closing one included. *)
Theorem dynamic_first_edge_silent options env filename importer imported traversed
    skipped p e rest :
  allowUnsafeDynamicCyclicDependency options = true →
  path imported ∉ traversed →
  imports imported = skipped ++ (p, e) :: rest →
  Forall (λ pe, pe.1 ∈ {[path imported]} ∪ traversed) skipped →
  p ∉ {[path imported]} ∪ traversed →
  existsb dynamic (toTraverse options env (declarations e)) = true →
  searchCycle options env filename importer imported traversed
  = (None, {[path imported]} ∪ traversed).
Proof.
  intros Hallow Hfresh Himports Hskipped Hp Hdyn.
  unfold searchCycle, findRoute, enoughFuel. simpl. unfold detectCycle. simpl.
  rewrite bool_decide_false by done. rewrite Himports.
  assert (Hscan : scanImports options env filename ({[path imported]} ∪ traversed) []
                    (skipped ++ (p, e) :: rest) [] = (false, [])).
  { clear Himports. induction skipped as [|[p0 e0] skipped IH]; simpl.
    - by rewrite bool_decide_false, Hallow, Hdyn by done.
    - apply Forall_cons in Hskipped as [Hp0 Hskipped]. simpl in Hp0.
      rewrite bool_decide_true by done. by apply IH. }
  by rewrite Hscan.
Qed.

Lemma dynamic_first_edge_silent_witness :
  searchCycle (mkOptions true false Infinity) (Scenario.world Scenario.early_dynamic) "a"
    Scenario.valueImport (Scenario.moduleAt Scenario.early_dynamic "b") ∅
  = (None, {["b"]} ∪ ∅).
Proof.
  apply (dynamic_first_edge_silent (mkOptions true false Infinity)
           (Scenario.world Scenario.early_dynamic) "a" Scenario.valueImport
           (Scenario.moduleAt Scenario.early_dynamic "b") ∅ []
           "c" (mkEdge "c" [Scenario.viaImport "c" 1])
           [Scenario.edge "a" [Scenario.static "a" 2]]).
  - reflexivity.
  - apply not_elem_of_empty.
  - by vm_compute.
  - constructor.
  - apply (bool_decide_unpack _). by vm_compute.
  - by vm_compute.
Defined.

(** *** The rendering of a route *)

Lemma string_app_assoc (s1 s2 s3 : string) :
  ((s1 +:+ s2) +:+ s3 = s1 +:+ s2 +:+ s3)%string.
Proof.
  induction s1 as [|c s1 IH]; [done|].
  change (String c ((s1 +:+ s2) +:+ s3) = String c (s1 +:+ s2 +:+ s3))%string.
  by rewrite IH.
Qed.

Lemma join_app sep l1 l2 :
  l1 ≠ [] → l2 ≠ [] →
  join sep (l1 ++ l2) = (join sep l1 +:+ sep +:+ join sep l2)%string.
Proof.
  intros H1 H2. induction l1 as [|s l1 IH]; [done|].
  destruct l1 as [|s' l1].
  - simpl. by destruct l2.
  - change (join sep ((s :: s' :: l1) ++ l2))
      with (s +:+ sep +:+ join sep ((s' :: l1) ++ l2))%string.
    rewrite IH by done.
    change (join sep (s :: s' :: l1)) with (s +:+ sep +:+ join sep (s' :: l1))%string.
    by rewrite !string_app_assoc.
Qed.

(** X15. Rendering composes: the string of a route made of two non-empty
    parts is the strings of the parts joined by [=>], and a one-entry route
    is rendered as [value:line]. *)
Theorem routeString_app r1 r2 :
  r1 ≠ [] → r2 ≠ [] →
  routeString (r1 ++ r2) = (routeString r1 +:+ "=>" +:+ routeString r2)%string ∧
  ∀ s, routeString [s] = routeEntry s.
Proof.
  intros H1 H2. split; [|done]. unfold routeString. rewrite map_app.
  apply join_app; by destruct r1, r2.
Qed.

Lemma routeString_app_witness :
  routeString ([mkSource "e" 2] ++ [mkSource "f" 1])
  = (routeString [mkSource "e" 2] +:+ "=>" +:+ routeString [mkSource "f" 1])%string ∧
  ∀ s, routeString [s] = routeEntry s.
Proof. apply routeString_app; discriminate. Defined.

(** *** The declarations of a file *)

Lemma checkSourceValue_node options env filename sourceValue importer traversed r :
  (checkSourceValue options env filename sourceValue importer traversed).1 = Some r →
  node r = importer.
Proof.
  unfold checkSourceValue, checkImported.
  repeat (case_match; try done). rewrite searchCycle_report.
  destruct (findRoute _ _ _ _ _).1; [|done]. by intros [= <-].
Qed.

(** X16. The reports of a file come in the order of its declarations, one
    at most for each, and each is located at the declaration checked:
    visiting two runs of declarations one after the other gives the reports
    of the first followed by those of the second, made from the
    [traversed] the first has left. *)
Theorem visitImports_app options env filename decls1 decls2 traversed :
  visitImports options env filename (decls1 ++ decls2) traversed
  = ((visitImports options env filename decls1 traversed).1 ++
     (visitImports options env filename decls2
        (visitImports options env filename decls1 traversed).2).1,
     (visitImports options env filename decls2
        (visitImports options env filename decls1 traversed).2).2) ∧
  length (visitImports options env filename decls1 traversed).1 ≤ length decls1 ∧
  Forall (λ r, ∃ sourceValue, (sourceValue, node r) ∈ decls1)
         (visitImports options env filename decls1 traversed).1.
Proof.
  split_and!.
  - revert traversed. induction decls1 as [|[sourceValue importer] decls1 IH];
      intros traversed; simpl.
    { by destruct (visitImports options env filename decls2 traversed). }
    destruct (checkSourceValue _ _ _ _ _ _) as [r traversed1]. rewrite IH.
    destruct (visitImports options env filename decls1 traversed1) as [rs1 traversed2].
    simpl. by rewrite app_assoc.
  - revert traversed. induction decls1 as [|[sourceValue importer] decls1 IH];
      intros traversed; simpl; [done|].
    destruct (checkSourceValue _ _ _ _ _ _) as [r traversed1].
    pose proof (IH traversed1) as Hle.
    destruct (visitImports options env filename decls1 traversed1) as [rs1 traversed2].
    simpl in *. rewrite length_app. destruct r; simpl; lia.
  - revert traversed. induction decls1 as [|[sourceValue importer] decls1 IH];
      intros traversed; simpl; [done|].
    pose proof (checkSourceValue_node options env filename sourceValue importer traversed)
      as Hnode.
    destruct (checkSourceValue _ _ _ _ _ _) as [r traversed1].
    pose proof (IH traversed1) as Hrest.
    destruct (visitImports options env filename decls1 traversed1) as [rs1 traversed2].
    simpl in *. apply Forall_app. split.
    + destruct r as [r|]; simpl; [|done]. apply Forall_singleton.
      exists sourceValue. rewrite (Hnode r eq_refl). apply list_elem_of_here.
    + eapply Forall_impl; [exact Hrest|]. intros r' [sv Hsv].
      exists sv. by apply list_elem_of_further.
Qed.

(** *** Raising [maxDepth] *)

Lemma depth_lt_mono n d d' : depth_le d d' → depth_lt n d = true → depth_lt n d' = true.
Proof.
  destruct d as [k|], d' as [k'|]; simpl; try done.
  rewrite !Nat.ltb_lt. lia.
Qed.

Lemma depth_lt_down n n' d : n ≤ n' → depth_lt n' d = true → depth_lt n d = true.
Proof. destruct d as [k|]; simpl; [|done]. rewrite !Nat.ltb_lt. lia. Qed.

Lemma filter_kept_pushed d (g : Getter) (rt : list Source) (tt : list DeclarationMetadata) :
  List.filter (kept d) (map (λ x, mkTraverser (Deferred g) (rt ++ [source x])) tt)
  = if depth_lt (length rt + 1) d
    then map (λ x, mkTraverser (Deferred g) (rt ++ [source x])) tt
    else [].
Proof.
  induction tt as [|x tt IH]; simpl; [by destruct (depth_lt _ _)|].
  unfold kept at 1. cbn [route]. rewrite length_app. cbn [length]. rewrite IH.
  by destruct (depth_lt (length rt + 1) d).
Qed.

(** The edge loop under a larger [maxDepth]: the same verdict, and the same
    pushes as far as the smaller depth lets them in. *)
Lemma scanImports_deeper options env filename d d' traversed rt es :
  depth_le d d' →
  (scanImports (withMaxDepth d options) env filename traversed rt es []).1
  = (scanImports (withMaxDepth d' options) env filename traversed rt es []).1 ∧
  (scanImports (withMaxDepth d options) env filename traversed rt es []).2
  = List.filter (kept d)
      (scanImports (withMaxDepth d' options) env filename traversed rt es []).2.
Proof.
  intros Hle. induction es as [|[p e] es [IH1 IH2]]; [done|]. simpl.
  change (toTraverse (withMaxDepth d options) env (declarations e))
    with (toTraverse (withMaxDepth d' options) env (declarations e)).
  case_bool_decide; [done|].
  destruct (andb _ (existsb dynamic _)); [done|].
  destruct (andb (bool_decide (p = filename)) _); [done|].
  rewrite (scanImports_app (withMaxDepth d options)).
  rewrite (scanImports_app (withMaxDepth d' options)).
  pose proof (filter_kept_pushed d (getter e) rt
                (toTraverse (withMaxDepth d' options) env (declarations e))) as Hnew.
  destruct (depth_lt (length rt + 1) d) eqn:Hd.
  - rewrite (depth_lt_mono _ _ _ Hle Hd). simpl. split; [done|].
    by rewrite List.filter_app, Hnew, IH2.
  - destruct (depth_lt (length rt + 1) d'); simpl; [|done]. split; [done|].
    by rewrite List.filter_app, Hnew, IH2.
Qed.

Lemma bfs_deeper options env filename d d' fuel traversed untraversed untraversed' rt
    traversed1 :
  depth_le d d' →
  untraversed = List.filter (kept d) untraversed' → layered untraversed' →
  bfs (withMaxDepth d options) env filename fuel traversed untraversed
  = Some (Some rt, traversed1) →
  bfs (withMaxDepth d' options) env filename fuel traversed untraversed'
  = Some (Some rt, traversed1).
Proof.
  intros Hle. revert traversed untraversed untraversed'.
  induction fuel as [|fuel IH]; intros traversed q q' Hq Hlay Hbfs.
  { discriminate. }
  simpl in Hbfs |- *. destruct q as [|next rest]; [discriminate|].
  assert (Hnext : In next q' ∧ kept d next = true).
  { apply filter_In. rewrite <-Hq. by left. }
  destruct Hnext as [Hin Hkept].
  destruct q' as [|hd rest']; [done|].
  assert (Hhd : kept d hd = true).
  { unfold kept in *. eapply depth_lt_down; [|exact Hkept].
    eapply layered_head; [exact Hlay|]. by apply list_elem_of_In. }
  simpl in Hq. rewrite Hhd in Hq. injection Hq as <- Hrest.
  destruct (detectCycle_cases (withMaxDepth d options) env filename traversed rest next)
    as [[Hd1 Hseen]|(m & Hm & Hfresh & Hd1)]; rewrite Hd1 in Hbfs;
  destruct (detectCycle_cases (withMaxDepth d' options) env filename traversed rest' next)
    as [[Hd2 Hseen']|(m' & Hm' & Hfresh' & Hd2)]; rewrite Hd2.
  - eapply IH; [exact Hrest|by eapply layered_tail|exact Hbfs].
  - by apply Hseen in Hm'.
  - by apply Hseen' in Hm.
  - assert (m' = m) as -> by congruence.
    destruct (scanImports_deeper options env filename d d' ({[path m]} ∪ traversed)
                (route next) (imports m) Hle) as [Hfound Hpushed].
    rewrite <-Hfound.
    destruct (scanImports (withMaxDepth d options) _ _ _ _ _ _).1.
    + done.
    + eapply IH; [| |exact Hbfs].
      * unfold pushed. by rewrite List.filter_app, <-Hrest, <-Hpushed.
      * eapply layered_step; [exact Hlay|]. apply Forall_forall.
        intros t (p & e & x & _ & _ & -> & _)%pushed_inv. cbn [route].
        rewrite length_app. simpl. lia.
Qed.

(** X10. For one check, taken from a given [traversed], and so for the
    first checked import of a file: what is reported with a positive
    [maxDepth] is reported, with the same route and the same resulting
    [traversed], with any larger [maxDepth], the unbounded one included.
    (The deeper search of an earlier import can mark more modules, so a
    later import of the file may lose its report, see
    [deeper_search_later_import].) *)
Theorem deeper_search_keeps_report options env filename sourceValue importer traversed
    d d' r traversed' :
  within 1 d → depth_le d d' →
  checkSourceValue (withMaxDepth d options) env filename sourceValue importer traversed
  = (Some r, traversed') →
  checkSourceValue (withMaxDepth d' options) env filename sourceValue importer traversed
  = (Some r, traversed').
Proof.
  intros Hone Hle. unfold checkSourceValue, checkImported.
  change (ignoreModule (withMaxDepth d' options) env sourceValue)
    with (ignoreModule (withMaxDepth d options) env sourceValue).
  destruct (ignoreModule (withMaxDepth d options) env sourceValue); [done|].
  change (dynamicImportAllowed (withMaxDepth d' options) importer)
    with (dynamicImportAllowed (withMaxDepth d options) importer).
  destruct (dynamicImportAllowed (withMaxDepth d options) importer); [done|].
  destruct (isTypeImport importer); [done|].
  destruct (exportMapGet env sourceValue) as [imported|]; [|done].
  case_bool_decide; [done|].
  destruct (hasDependencyCycle env filename imported); [|done]. simpl.
  unfold searchCycle.
  pose proof (findRoute_bfs (withMaxDepth d options) env filename imported traversed)
    as Hbfs.
  pose proof (findRoute_bfs (withMaxDepth d' options) env filename imported traversed)
    as Hbfs'.
  destruct (findRoute (withMaxDepth d options) env filename imported traversed)
    as [[rt|] tr]; [|done].
  intros [= <- <-].
  eapply (bfs_deeper options env filename d d') in Hbfs; [|done| |].
  - rewrite Hbfs in Hbfs'. by injection Hbfs' as <-.
  - simpl. unfold kept. simpl. apply depth_lt_within in Hone as Hone'. by rewrite Hone'.
  - exists [mkTraverser (Ready imported) []], []. split_and!; [done| |done].
    by apply Forall_singleton.
Qed.

Lemma deeper_search_keeps_report_witness :
  checkSourceValue (withMaxDepth Infinity (Scenario.plain (Finite 2)))
    (Scenario.world Scenario.three) "a" "b" Scenario.valueImport ∅
  = (Some (mkReport Scenario.valueImport "via c:4"), {["c"; "b"]}).
Proof.
  apply (deeper_search_keeps_report (Scenario.plain (Finite 2))
           (Scenario.world Scenario.three) "a" "b" Scenario.valueImport ∅
           (Finite 2) Infinity).
  - simpl. lia.
  - exact I.
  - by vm_compute.
Defined.

(** Over a whole file a larger [maxDepth] can silence a later import: a
    imports x and then c, with x -> y -> z -> a and c -> z.  With
    [maxDepth = 2] the search from x stops before z, and the import of c
    is reported; with [maxDepth = 3] the import of x is reported and its
    search has marked z, so the import of c is not. *)
Lemma deeper_search_later_import :
  (visitImports (Scenario.plain (Finite 2)) (Scenario.world Scenario.deepening) "a"
     [("x", Scenario.valueImport); ("c", Scenario.valueImport)] ∅).1
  = [mkReport Scenario.valueImport "via z:1"] ∧
  (visitImports (Scenario.plain (Finite 3)) (Scenario.world Scenario.deepening) "a"
     [("x", Scenario.valueImport); ("c", Scenario.valueImport)] ∅).1
  = [mkReport Scenario.valueImport "via y:1=>z:1"].
Proof. split; by vm_compute. Qed.

(** *** When an import is reported *)

(** X19. Without the dynamic escape, on a cache that keeps its invariants,
    an import is reported exactly when some chain of qualifying edges
    within [maxDepth] leads from its target back to the linted file through
    modules that are not traversed yet. *)
Theorem report_iff_cycle options env filename importer imported traversed :
  allowUnsafeDynamicCyclicDependency options = false →
  wellFormed env imported = true → path imported ≠ filename →
  filename ∉ traversed → within 1 (maxDepth options) →
  (∃ r, (searchCycle options env filename importer imported traversed).1 = Some r) ↔
  (∃ h, within h (maxDepth options) ∧
        closesIn options env filename (notTraversed traversed) h imported = true).
Proof.
  intros Hoff Hwf Hne Hfile Hone. rewrite searchCycle_report. split.
  - intros [r Hr].
    destruct (findRoute options env filename imported traversed) as [[rt|] tr] eqn:Hfind;
      [|done].
    exists (S (length rt)). split.
    + by eapply findRoute_within.
    + by eapply findRoute_sound.
  - intros (h & Hin & Hc).
    apply (closesIn_notTraversed_live options env filename traversed h imported Hoff)
      in Hc.
    destruct (findRoute_complete options env filename imported traversed h
                Hwf Hne Hfile Hin Hc) as (rt & tr & -> & _).
    by eexists.
Qed.

Lemma report_iff_cycle_witness :
  ∃ r, (searchCycle (Scenario.plain (Finite 2)) (Scenario.world Scenario.three) "a"
          Scenario.valueImport (Scenario.moduleAt Scenario.three "b") ∅).1 = Some r.
Proof.
  apply (report_iff_cycle (Scenario.plain (Finite 2)) (Scenario.world Scenario.three)
           "a" Scenario.valueImport (Scenario.moduleAt Scenario.three "b") ∅).
  - reflexivity.
  - by vm_compute.
  - by vm_compute.
  - apply not_elem_of_empty.
  - simpl. lia.
  - exists 2. split; [simpl; lia|by vm_compute].
Defined.

(** X20. A dead end: when every edge of the target either leads to a
    traversed path or has no qualifying declaration left (all of them
    type-only or ignored, or none at all), the target is marked and nothing
    is reported. *)
Theorem dead_end_silent options env filename importer imported traversed :
  path imported ∉ traversed →
  Forall (λ pe, pe.1 ∈ {[path imported]} ∪ traversed ∨
                toTraverse options env (declarations pe.2) = [])
         (imports imported) →
  searchCycle options env filename importer imported traversed
  = (None, {[path imported]} ∪ traversed).
Proof.
  intros Hfresh Hdead.
  unfold searchCycle, findRoute, enoughFuel. simpl. unfold detectCycle. simpl.
  rewrite bool_decide_false by done.
  assert (Hscan : scanImports options env filename ({[path imported]} ∪ traversed) []
                    (imports imported) [] = (false, [])).
  { induction Hdead as [|[p e] es Hpe _ IH]; [done|]. simpl in *.
    destruct Hpe as [Hp|Hnone].
    - by rewrite bool_decide_true.
    - rewrite Hnone. simpl. rewrite andb_false_r, andb_false_r.
      case_bool_decide; [done|]. by destruct (depth_lt _ _). }
  by rewrite Hscan.
Qed.

Lemma dead_end_silent_witness :
  searchCycle (Scenario.plain Infinity) (Scenario.world Scenario.type_back) "a"
    Scenario.valueImport (Scenario.moduleAt Scenario.type_back "b") ∅
  = (None, {["b"]} ∪ ∅).
Proof.
  apply dead_end_silent; [apply not_elem_of_empty|].
  apply Forall_singleton. right. by vm_compute.
Defined.

(** *** From one check of a file to the next *)

Lemma visitImports_compose options env filename decls1 decls2 traversed :
  visitImports options env filename (decls1 ++ decls2) traversed
  = ((visitImports options env filename decls1 traversed).1 ++
     (visitImports options env filename decls2
        (visitImports options env filename decls1 traversed).2).1,
     (visitImports options env filename decls2
        (visitImports options env filename decls1 traversed).2).2).
Proof.
  revert traversed. induction decls1 as [|[sourceValue importer] decls1 IH];
    intros traversed; simpl.
  { by destruct (visitImports options env filename decls2 traversed). }
  destruct (checkSourceValue _ _ _ _ _ _) as [r traversed1]. rewrite IH.
  destruct (visitImports options env filename decls1 traversed1) as [rs1 traversed2].
  simpl. by rewrite app_assoc.
Qed.

Lemma visitImports_one options env filename sourceValue importer traversed :
  visitImports options env filename [(sourceValue, importer)] traversed
  = (option_list
       (checkSourceValue options env filename sourceValue importer traversed).1,
     (checkSourceValue options env filename sourceValue importer traversed).2).
Proof.
  simpl. destruct (checkSourceValue _ _ _ _ _ _) as [r traversed1].
  simpl. by rewrite app_nil_r.
Qed.

Lemma checkSourceValue_marks options env filename sourceValue importer traversed
    imported :
  ignoreModule options env sourceValue = false →
  dynamicImportAllowed options importer = false →
  isTypeImport importer = false →
  exportMapGet env sourceValue = Some imported → path imported ≠ filename →
  hasDependencyCycle env filename imported = true →
  path imported ∈ (checkSourceValue options env filename sourceValue importer traversed).2.
Proof.
  intros Hign Hdyn Htype Hget Hself Hscc. unfold checkSourceValue, checkImported.
  rewrite Hign, Hdyn, Htype, Hget, bool_decide_false, Hscc by done. simpl.
  rewrite searchCycle_traversed.
  pose proof (findRoute_bfs options env filename imported traversed) as Hbfs.
  destruct (findRoute options env filename imported traversed) as [r traversed'].
  eapply (bfs_marks_head options env filename _ traversed
            (mkTraverser (Ready imported) []) [] imported); [done|exact Hbfs].
Qed.

Lemma checkSourceValue_no_cycle options env filename sourceValue importer traversed :
  (∀ imported, exportMapGet env sourceValue = Some imported →
     ∀ h, closesIn options env filename (notTraversed traversed) h imported = false) →
  (checkSourceValue options env filename sourceValue importer traversed).1 = None.
Proof.
  intros Hnone. unfold checkSourceValue, checkImported.
  destruct (ignoreModule options env sourceValue); [done|].
  destruct (dynamicImportAllowed options importer); [done|].
  destruct (isTypeImport importer); [done|].
  destruct (exportMapGet env sourceValue) as [imported|] eqn:Hget; [|done].
  case_bool_decide; [done|].
  destruct (hasDependencyCycle env filename imported); [|done]. simpl.
  rewrite searchCycle_report.
  destruct (findRoute options env filename imported traversed) as [[rt|] tr'] eqn:Hfind;
    [|done].
  apply findRoute_sound in Hfind. by rewrite (Hnone imported eq_refl) in Hfind.
Qed.

(** C9. In a run that starts with the empty set, [traversed] is empty
    whenever a file begins, so the reports of a file are those of linting
    it from the empty set.  Within a file every check starts from the set
    the checks before it have left: the file is visited declaration by
    declaration on the one set, and [Program:exit] empties it, not
    before.  A check only adds to the set, and a check that reaches the
    search adds the target of its import at least.  So a later import of
    the file is not reported when every qualifying cycle from its target
    runs through a module that the earlier checks of the file have left
    traversed. *)
Theorem traversed_lifecycle options :
  (∀ files, (lintFiles options files ∅).2 = ∅) ∧
  (∀ files f,
     (lintFiles options (files ++ [f]) ∅).1
     = (lintFiles options files ∅).1 ++
       [(lintFile options (file_env f) (file_name f) (file_imports f) ∅).1]) ∧
  (∀ env filename decls traversed,
     filename ≠ "<text>"%string →
     lintFile options env filename decls traversed
     = ((visitImports options env filename decls traversed).1, ∅)) ∧
  (∀ env filename decls sourceValue importer traversed,
     visitImports options env filename (decls ++ [(sourceValue, importer)]) traversed
     = ((visitImports options env filename decls traversed).1 ++
        option_list
          (checkSourceValue options env filename sourceValue importer
             (visitImports options env filename decls traversed).2).1,
        (checkSourceValue options env filename sourceValue importer
           (visitImports options env filename decls traversed).2).2)) ∧
  (∀ env filename sourceValue importer traversed,
     traversed ⊆ (checkSourceValue options env filename sourceValue importer traversed).2) ∧
  (∀ env filename sourceValue importer traversed imported,
     ignoreModule options env sourceValue = false →
     dynamicImportAllowed options importer = false →
     isTypeImport importer = false →
     exportMapGet env sourceValue = Some imported → path imported ≠ filename →
     hasDependencyCycle env filename imported = true →
     path imported
     ∈ (checkSourceValue options env filename sourceValue importer traversed).2) ∧
  (∀ env filename decls sourceValue importer traversed,
     (∀ imported, exportMapGet env sourceValue = Some imported →
        ∀ h, closesIn options env filename
               (notTraversed (visitImports options env filename decls traversed).2)
               h imported = false) →
     (visitImports options env filename (decls ++ [(sourceValue, importer)]) traversed).1
     = (visitImports options env filename decls traversed).1).
Proof.
  assert (Hsnoc : ∀ env filename decls sourceValue importer traversed,
     visitImports options env filename (decls ++ [(sourceValue, importer)]) traversed
     = ((visitImports options env filename decls traversed).1 ++
        option_list
          (checkSourceValue options env filename sourceValue importer
             (visitImports options env filename decls traversed).2).1,
        (checkSourceValue options env filename sourceValue importer
           (visitImports options env filename decls traversed).2).2)).
  { intros. by rewrite visitImports_compose, visitImports_one. }
  split_and!.
  - apply lintFiles_empty.
  - intros files f. rewrite lintFiles_app.
    pose proof (lintFiles_empty options files) as Hempty.
    destruct (lintFiles options files ∅) as [rs traversed1]. simpl in Hempty.
    subst traversed1. simpl.
    destruct (lintFile _ _ _ _ _) as [rs1 traversed2]. done.
  - intros env filename decls traversed Hne. unfold lintFile.
    rewrite bool_decide_false by done. by destruct (visitImports _ _ _ _ _).
  - apply Hsnoc.
  - intros. apply checkSourceValue_mono.
  - intros. by apply checkSourceValue_marks.
  - intros env filename decls sourceValue importer traversed Hnone.
    rewrite Hsnoc. simpl.
    rewrite (checkSourceValue_no_cycle _ _ _ _ _ _ Hnone). simpl. by rewrite app_nil_r.
Qed.

Lemma traversed_lifecycle_witness :
  closesIn (Scenario.plain Infinity) (Scenario.world Scenario.revisit) "a" anyModule 2
    (Scenario.moduleAt Scenario.revisit "c") = true ∧
  lintFile (Scenario.plain Infinity) (Scenario.world Scenario.revisit) "a"
    [("b", Scenario.valueImport); ("c", Scenario.valueImport)] ∅
  = ((visitImports (Scenario.plain Infinity) (Scenario.world Scenario.revisit) "a"
        [("b", Scenario.valueImport); ("c", Scenario.valueImport)] ∅).1, ∅) ∧
  "b"%string
  ∈ (checkSourceValue (Scenario.plain Infinity) (Scenario.world Scenario.revisit) "a"
       "b" Scenario.valueImport ∅).2 ∧
  (visitImports (Scenario.plain Infinity) (Scenario.world Scenario.revisit) "a"
     ([("b", Scenario.valueImport)] ++ [("c", Scenario.valueImport)]) ∅).1
  = (visitImports (Scenario.plain Infinity) (Scenario.world Scenario.revisit) "a"
       [("b", Scenario.valueImport)] ∅).1.
Proof.
  destruct (traversed_lifecycle (Scenario.plain Infinity))
    as (_ & _ & Hclear & _ & _ & Hmark & Hskip).
  split_and!.
  - by vm_compute.
  - apply Hclear. by vm_compute.
  - apply (Hmark (Scenario.world Scenario.revisit) "a" "b" Scenario.valueImport ∅
             (Scenario.moduleAt Scenario.revisit "b")); by vm_compute.
  - apply Hskip. intros imported Hget h.
    assert (imported = Scenario.moduleAt Scenario.revisit "c") as ->.
    { vm_compute in Hget. injection Hget as <-. by vm_compute. }
    destruct h as [|[|h]]; by vm_compute.
Defined.
